(** * pixel: the remote-entity orchestration client

    A shallow embedding of the Go client (package main of engine.go and of
    its later variant with links, chains and joint actuation) and the
    properties of its framing codec, its registry and its fan-out batches.

    - Part 1 embeds the framing codec: the sentinel, [strings.Contains],
      [strings.ReplaceAll], [strings.TrimSpace], the part of [bufio.Reader]
      that [readResponse] drives, and [readResponse] itself.
    - Part 2 embeds the effectful operations as programs over an interface
      of events (network, registry, mutexes, wait groups, goroutines).
    - Part 3 gives the events their meaning on a world state, a sequential
      runner and an interleaving scheduler for goroutines.
    - Part 4 states and proves the properties.
    - Part 5 goes further into the decoder, the connections and the
      functions that drive one entity or one joint. *)

From Stdlib Require Import String Ascii List Arith Lia Bool ZArith Floats.
From Equations Require Import Equations.
From stdpp Require Import base list.
Import ListNotations.

Set Default Proof Using "Type".
Local Open Scope string_scope.
Local Open Scope nat_scope.
Local Open Scope list_scope.

(* ================================================================== *)
(** * Part 1. The framing codec *)
(* ================================================================== *)

(** Go strings and byte slices are sequences of bytes. *)
Definition bytes := list ascii.

Definition B (s : string) : bytes := list_ascii_of_string s.

(** The session constants of the [const] block. *)
Definition serverAddr : string := "127.0.0.1:14000".
Definition authPass : bytes := B "my_secure_password".
Definition delimiter : bytes := B "<???DONE???---".

(** Go's [error]: a value that renders as a message; [nil] is [None]. *)
Record error := Err { Error : string }.

Definition EOF : error := Err "EOF".
Definition ErrNoProgress : error :=
  Err "multiple Read calls return no data or error".
Definition ErrDeadline : error := Err "i/o timeout".

(** ** strings.HasPrefix, strings.Contains, strings.ReplaceAll *)

Fixpoint HasPrefix (s prefix : bytes) {struct prefix} : bool :=
  match prefix, s with
  | [], _ => true
  | _ :: _, [] => false
  | p :: prefix', c :: s' => Ascii.eqb c p && HasPrefix s' prefix'
  end.

(** [strings.Contains(s, substr)]: [substr] occurs at some offset of [s]. *)
Fixpoint Contains (s substr : bytes) : bool :=
  HasPrefix s substr ||
  match s with
  | [] => false
  | _ :: s' => Contains s' substr
  end.

(** [strings.ReplaceAll(s, old, new)] for a non-empty [old], the only way
    the client calls it: the leftmost occurrence of [old] is replaced, and
    the scan resumes after it, so that the occurrences replaced do not
    overlap.  [skip] counts the bytes of the occurrence still to be passed
    over.  (With an empty [old] Go inserts [new] around every rune; that
    case is not embedded.) *)
Fixpoint replaceFrom (old new : bytes) (skip : nat) (s : bytes) : bytes :=
  match s with
  | [] => []
  | c :: s' =>
    match skip with
    | S k => replaceFrom old new k s'
    | O => if HasPrefix s old
           then new ++ replaceFrom old new (length old - 1) s'
           else c :: replaceFrom old new 0 s'
    end
  end.

Definition ReplaceAll (s old new : bytes) : bytes := replaceFrom old new 0 s.

(** ** strings.TrimSpace

    [unicode.IsSpace] holds of the six ASCII spaces and of U+0085, U+00A0,
    U+1680, U+2000..U+200A, U+2028, U+2029, U+202F, U+205F and U+3000.  On a
    Go string these are the following UTF-8 encodings of one, two and three
    bytes; a byte sequence that is not the encoding of a rune decodes to
    [utf8.RuneError], which is not a space. *)
Definition code (c : ascii) : nat := nat_of_ascii c.

Definition space1 (a : ascii) : bool :=
  (9 <=? code a) && (code a <=? 13) || (code a =? 32).

Definition space2 (a b : ascii) : bool :=
  (code a =? 194) && ((code b =? 133) || (code b =? 160)).

Definition space3 (a b c : ascii) : bool :=
  (code a =? 225) && (code b =? 154) && (code c =? 128)
  || (code a =? 226) && (code b =? 128) &&
     ((128 <=? code c) && (code c <=? 138)
      || (code c =? 168) || (code c =? 169) || (code c =? 175))
  || (code a =? 226) && (code b =? 129) && (code c =? 159)
  || (code a =? 227) && (code b =? 128) && (code c =? 128).

(** Strip leading runes while they are spaces; [p2] and [p3] receive the
    bytes in the order in which [s] lists them. *)
Fixpoint trimWith (p2 : ascii -> ascii -> bool)
    (p3 : ascii -> ascii -> ascii -> bool) (s : bytes) : bytes :=
  match s with
  | [] => []
  | a :: s1 =>
    if space1 a then trimWith p2 p3 s1 else
    match s1 with
    | [] => s
    | b :: s2 =>
      if p2 a b then trimWith p2 p3 s2 else
      match s2 with
      | [] => s
      | c :: s3 => if p3 a b c then trimWith p2 p3 s3 else s
      end
    end
  end.

Definition TrimLeftSpace (s : bytes) : bytes := trimWith space2 space3 s.

(** Trailing runes are found by decoding backwards: the same scan on the
    reversed string, with the bytes of each rune read last to first. *)
Definition TrimRightSpace (s : bytes) : bytes :=
  rev (trimWith (fun a b => space2 b a) (fun a b c => space3 c b a) (rev s)).

Definition TrimSpace (s : bytes) : bytes := TrimRightSpace (TrimLeftSpace s).

(** ** The byte stream of a connection

    What one call of [readResponse] can obtain from [conn]: the results of
    the successive [conn.Read] calls that return data before the read
    deadline set by [SetReadDeadline], and the error that every later
    [Read] returns (the deadline's timeout, [EOF], a reset, ...). *)
Record Stream := { chunks : list bytes; closing : error }.

(** ** bufio.Reader

    [unread] is the buffered data not yet consumed ([buf[r:w]]), [source]
    the reads still to come from the connection.  The buffer's capacity only
    decides how [ReadString] collects a long line in fragments, not what it
    returns, so it is left unbounded. *)
Record Reader := { unread : bytes; source : list bytes; failure : error }.

Definition NewReader (conn : Stream) : Reader :=
  {| unread := []; source := chunks conn; failure := closing conn |}.

(** [bytes.IndexByte] and the split at that index: the line up to and
    including the first [delim], and what follows it. *)
Fixpoint cut (delim : ascii) (s : bytes) : option (bytes * bytes) :=
  match s with
  | [] => None
  | c :: s' =>
    if Ascii.eqb c delim then Some ([c], s')
    else match cut delim s' with
         | Some (line, rest) => Some (c :: line, rest)
         | None => None
         end
  end.

(** [fill] gives up with [io.ErrNoProgress] after this many consecutive
    reads of no data. *)
Definition maxConsecutiveEmptyReads : nat := 100.

(** [ReadString]'s loop: search the buffered data for [delim]; when it is
    not there, read once more from the source ([fill]) and search again;
    when the source fails, return what is buffered together with the
    error.  [empty] counts the consecutive empty reads of the current
    [fill]. *)
Fixpoint readSlice (delim : ascii) (fail : error) (buf : bytes) (empty : nat)
    (src : list bytes) : bytes * option error * (bytes * list bytes) :=
  match cut delim buf with
  | Some (line, rest) => (line, None, (rest, src))
  | None =>
    match src with
    | [] => (buf, Some fail, ([], []))
    | [] :: src' =>
      if S empty =? maxConsecutiveEmptyReads
      then (buf, Some ErrNoProgress, ([], src'))
      else readSlice delim fail buf (S empty) src'
    | chunk :: src' => readSlice delim fail (buf ++ chunk) 0 src'
    end
  end.

(** [reader.ReadString(delim)]: the line, the error, and the reader after
    the call. *)
Definition ReadString (r : Reader) (delim : ascii)
  : bytes * option error * Reader :=
  let '(line, err, (buf, src)) :=
    readSlice delim (failure r) (unread r) 0 (source r) in
  (line, err, {| unread := buf; source := src; failure := failure r |}).

(** The data a reader can still deliver. *)
Definition pending (r : Reader) : nat :=
  length (unread r) + length (concat (source r)).

(** Termination of the loop of [readResponse]: a [ReadString] that
    returns no error has consumed at least the delimiter. *)
Lemma cut_shorter delim s line rest :
  cut delim s = Some (line, rest) -> length rest < length s.
Proof.
  revert line rest; induction s as [|c s IH]; simpl; intros line rest H.
  - discriminate.
  - destruct (Ascii.eqb c delim).
    + inversion H; subst; lia.
    + destruct (cut delim s) as [[l r]|]; [|discriminate].
      inversion H; subst. specialize (IH _ _ eq_refl). lia.
Qed.

Lemma readSlice_progress delim fail src : forall buf empty line buf' src',
  readSlice delim fail buf empty src = (line, None, (buf', src')) ->
  length buf' + length (concat src') < length buf + length (concat src).
Proof.
  induction src as [|chunk src IH]; intros buf empty line buf' src'; simpl.
  - destruct (cut delim buf) as [[l r]|] eqn:E; [|discriminate].
    intros H; inversion H; subst. apply cut_shorter in E. simpl. lia.
  - destruct (cut delim buf) as [[l r]|] eqn:E.
    + intros H; inversion H; subst. apply cut_shorter in E.
      simpl. rewrite length_app. lia.
    + destruct chunk as [|c chunk].
      * destruct (Nat.eqb _ _); [discriminate|].
        intros H. apply IH in H. simpl. lia.
      * intros H. apply IH in H.
        rewrite length_app in H. simpl in *. rewrite length_app. lia.
Qed.

Lemma ReadString_progress r delim line r' :
  ReadString r delim = (line, None, r') -> pending r' < pending r.
Proof.
  unfold ReadString, pending.
  destruct (readSlice delim (failure r) (unread r) 0 (source r))
    as [[l e] [buf src]] eqn:E.
  intros H; inversion H; subst; simpl.
  eapply readSlice_progress; eauto.
Qed.

Definition inspect {A} (a : A) : {b : A | a = b} := exist _ a eq_refl.

(** ** readResponse

    The loop of [readResponse]: one [ReadString('-')] per turn; an error
    leaves the loop without writing the line that came with it; a line
    that contains the sentinel leaves the loop after it is written. *)
Equations readLoop (reader : Reader) (builder : bytes) : bytes
  by wf (pending reader) lt :=
  readLoop reader builder with inspect (ReadString reader "-") := {
    | exist _ (line, Some err, _) _ => builder
    | exist _ (line, None, reader') _ =>
        if Contains line delimiter
        then builder ++ line
        else readLoop reader' (builder ++ line) }.
Next Obligation.
  intros. eapply ReadString_progress; eauto.
Qed.

Definition readResponse (conn : Stream) : bytes * option error :=
  let reader := NewReader conn in
  let builder := readLoop reader [] in
  let full := ReplaceAll builder delimiter [] in
  (TrimSpace full, None).

(* ================================================================== *)
(** * Part 2. The operations as programs over events *)
(* ================================================================== *)

Definition float64 := float.

(** [time.Duration] counts nanoseconds. *)
Definition Duration := Z.
Definition Millisecond : Duration := 1000000%Z.

(** The values the client stores in a [Message]
    ([map[string]interface{}]): strings, booleans, numbers, [[]float64],
    [[][]string] and [map[string]float64]. *)
Inductive value :=
| VString (s : string)
| VBool (b : bool)
| VFloat (x : float64)
| VFloats (xs : list float64)
| VChains (chains : list (list string))
| VParams (params : list (string * float64)).

Definition Message := list (string * value).

Record Cube := { Name : string; Position : list float64 }.

Record CubeLink := { JointName : string; CubeA : string; CubeB : string }.

(** The shape [getJointsForCube] decodes a response into. *)
Record JointsResponse :=
  { Type_ : string; CubeName : string; Joints : list string }.

Inductive mutex := cubeListMutex | linkListMutex.

Definition Conn := nat.
Definition WaitGroup := nat.

(** An operand of [fmt.Println] or [fmt.Printf]. *)
Inductive operand :=
| Str (s : string)
| Txt (b : bytes)
| Num (x : float64)
| Int (n : Z)
| Dur (d : Duration)
| Errv (e : error).

(** The function literals and functions started with [go], with the
    variables they capture. *)
Inductive goroutine :=
| go_spawnCube (cube : Cube) (wg : WaitGroup)
| go_unfreeze (name : string) (wg : WaitGroup)
| go_despawn (name : string) (wg : WaitGroup)
| go_stiffen (joint : CubeLink) (params : list (string * float64))
    (wg : WaitGroup)
| go_stiffenBULK (joint : CubeLink) (params : list (string * float64))
    (wg : WaitGroup)
| go_color (name : string) (wg : WaitGroup)
| go_rotate (jn : string) (velocity : float64) (duration : Duration).

(** What a program asks of its environment, indexed by the type of the
    answer. *)
Inductive event : Type -> Type :=
(* net *)
| Dial (network address : string) : event (Conn + error)
| Write (conn : Conn) (data : bytes) : event (option error)
| Incoming (conn : Conn) : event Stream
| Close (conn : Conn) : event unit
(* encoding/json *)
| Marshal (msg : Message) : event (bytes + error)
| Unmarshal (data : bytes) : event (JointsResponse + error)
(* the order in which [range] visits a map *)
| RangeMap (m : list (string * float64)) : event (list (string * float64))
(* the registry *)
| Lock (m : mutex) : event unit
| Unlock (m : mutex) : event unit
| ReadCubeList : event (list string)
| AppendCube (name : string) : event unit
| ReadCubeLinks : event (list CubeLink)
| AppendLink (link : CubeLink) : event unit
(* sync.WaitGroup and goroutines *)
| NewWaitGroup : event WaitGroup
| Add (wg : WaitGroup) (delta : nat) : event unit
| Done (wg : WaitGroup) : event unit
| Wait (wg : WaitGroup) : event unit
| Go (g : goroutine) : event unit
(* fmt and time *)
| Println (args : list operand) : event unit
| Printf (format : string) (args : list operand) : event unit
| Sleep (d : Duration) : event unit
(* a run-time panic: there is no answer *)
| Panic (msg : string) : event Empty_set.

(** A program: it returns, or raises an event and goes on from the
    answer. *)
Inductive prog (A : Type) : Type :=
| Ret (a : A)
| Vis {X : Type} (e : event X) (k : X -> prog A).

Arguments Ret {A} a.
Arguments Vis {A X} e k.

Fixpoint bind {A B : Type} (p : prog A) (f : A -> prog B) : prog B :=
  match p with
  | Ret a => f a
  | Vis e k => Vis e (fun x => bind (k x) f)
  end.

Definition trigger {X : Type} (e : event X) : prog X := Vis e Ret.

#[global] Instance prog_ret : MRet prog := @Ret.
#[global] Instance prog_bind : MBind prog := fun A B f p => bind p f.

(** [for _, x := range xs { body x }] *)
Fixpoint forRange {A : Type} (xs : list A) (body : A -> prog unit)
  : prog unit :=
  match xs with
  | [] => Ret tt
  | x :: xs' => body x ;; forRange xs' body
  end.

(** [for i := start; i < start + count; i++ { body i }] *)
Fixpoint forCount (count start : nat) (body : nat -> prog unit) : prog unit :=
  match count with
  | O => Ret tt
  | S count' => body start ;; forCount count' (S start) body
  end.

(** [fmt.Sprintf] for a format whose verbs are all [%s]. *)
Fixpoint Sprintf (format : string) (args : list string) : string :=
  match format with
  | EmptyString => EmptyString
  | String "%" (String "s" rest) =>
    match args with
    | a :: args' => a ++ Sprintf rest args'
    | [] => "%!s(MISSING)" ++ Sprintf rest []
    end
  | String c rest => String c (Sprintf rest args)
  end.

(** [fmt.Errorf(prefix + ": %v", err)] *)
Definition Errorf (prefix : string) (err : error) : error :=
  Err (prefix ++ ": " ++ Error err).

Definition sendJSONMessage (conn : Conn) (msg : Message)
  : prog (option error) :=
  r ← trigger (Marshal msg);
  match r with
  | inr err => mret (Some err)
  | inl data =>
    let data := data ++ delimiter in
    trigger (Write conn data)
  end.

(** A call [readResponse(conn)]: the connection delivers a stream, and the
    decoder of Part 1 runs on it. *)
Definition readResponseOf (conn : Conn) : prog (bytes * option error) :=
  s ← trigger (Incoming conn);
  mret (readResponse s).

(** The first message on every connection: [authPass + delimiter]. *)
Definition authMessage : bytes := authPass ++ delimiter.

(** The [spawn] message of [spawnCube]. *)
Definition spawnCommand (cube : Cube) : Message :=
  [("type", VString "spawn_cube");
   ("cube_name", VString (Name cube));
   ("position", VFloats (Position cube));
   ("rotation", VFloats [0%float; 0%float; 0%float]);
   ("is_base", VBool true)].

Definition spawnCube (cube : Cube) (wg : WaitGroup) : prog unit :=
  (r ← trigger (Dial "tcp" serverAddr);
   match r with
   | inr err => trigger (Println [Str "[Spawn] Failed to connect:"; Errv err])
   | inl conn =>
     (w ← trigger (Write conn authMessage);
      match w with
      | Some err =>
        trigger (Println [Str "[Spawn] Auth write error:"; Errv err])
      | None =>
        '(_, err) ← readResponseOf conn;
        match err with
        | Some err =>
          trigger (Println [Str "[Spawn] Failed to read auth response:";
                            Errv err])
        | None =>
          let spawn : Message := spawnCommand cube in
          e ← sendJSONMessage conn spawn;
          match e with
          | Some err =>
            trigger (Println [Str "[Spawn] Failed to spawn cube:"; Errv err])
          | None =>
            let fullCubeName := (Name cube ++ "_BASE")%string in
            trigger (Lock cubeListMutex);;
            trigger (AppendCube fullCubeName);;
            trigger (Unlock cubeListMutex)
          end
        end
      end);;
     trigger (Close conn)                       (* defer conn.Close() *)
   end);;
  trigger (Done wg).                            (* defer wg.Done() *)

(** The goroutine of [unfreezeAllCubes]. *)
Definition unfreezeCube (name : string) (wg : WaitGroup) : prog unit :=
  (r ← trigger (Dial "tcp" serverAddr);
   match r with
   | inr err =>
     trigger (Println [Str "[Unfreeze] Failed to connect:"; Errv err])
   | inl conn =>
     (w ← trigger (Write conn authMessage);
      match w with
      | Some _ => mret tt
      | None =>
        _ ← readResponseOf conn;
        let unfreeze : Message :=
          [("type", VString "freeze_cube");
           ("cube_name", VString name);
           ("freeze", VBool false)] in
        _ ← sendJSONMessage conn unfreeze;
        mret tt
      end);;
     trigger (Close conn)
   end);;
  trigger (Done wg).

Definition unfreezeAllCubes : prog unit :=
  wg ← trigger NewWaitGroup;
  cubes ← trigger ReadCubeList;
  forRange cubes (fun cube =>
    trigger (Add wg 1);;
    trigger (Go (go_unfreeze cube wg)));;
  trigger (Wait wg).

(** The goroutine of [despawnAllCubes]. *)
Definition despawnCube (name : string) (wg : WaitGroup) : prog unit :=
  (r ← trigger (Dial "tcp" serverAddr);
   match r with
   | inr err =>
     trigger (Println [Str "[Despawn] Failed to connect:"; Errv err])
   | inl conn =>
     (w ← trigger (Write conn authMessage);
      match w with
      | Some _ => mret tt
      | None =>
        _ ← readResponseOf conn;
        let despawn : Message :=
          [("type", VString "despawn_cube");
           ("cube_name", VString name)] in
        _ ← sendJSONMessage conn despawn;
        mret tt
      end);;
     trigger (Close conn)
   end);;
  trigger (Done wg).

Definition despawnAllCubes : prog unit :=
  wg ← trigger NewWaitGroup;
  cubes ← trigger ReadCubeList;
  forRange cubes (fun cube =>
    trigger (Add wg 1);;
    trigger (Go (go_despawn cube wg)));;
  trigger (Wait wg).

Definition linkCubes (cubeA cubeB jointType jointName : string) : prog unit :=
  r ← trigger (Dial "tcp" serverAddr);
  match r with
  | inr err => trigger (Println [Str "[Link] Failed to connect:"; Errv err])
  | inl conn =>
    (w ← trigger (Write conn authMessage);
     match w with
     | Some err => trigger (Println [Str "[Link] Auth write error:"; Errv err])
     | None =>
       _ ← readResponseOf conn;
       let link : Message :=
         [("type", VString "create_joint");
          ("cube1", VString cubeA);
          ("cube2", VString cubeB);
          ("joint_type", VString jointType);
          ("joint_name", VString jointName)] in
       e ← sendJSONMessage conn link;
       match e with
       | Some err =>
         trigger (Println [Str "[Link] Failed to send link command:";
                           Errv err])
       | None =>
         trigger (Lock linkListMutex);;
         trigger (AppendLink {| JointName := jointName;
                                CubeA := cubeA; CubeB := cubeB |});;
         trigger (Unlock linkListMutex);;
         trigger (Printf "🔗 Linked %s <--> %s with joint '%s' (%s)\n"
                    [Str cubeA; Str cubeB; Str jointName; Str jointType])
       end
     end);;
    trigger (Close conn)
  end.

Definition setJointParam (conn : Conn) (jointName paramName : string)
    (value : float64) : prog unit :=
  let cmd : Message :=
    [("type", VString "set_joint_param");
     ("joint_name", VString jointName);
     ("param_name", VString paramName);
     ("value", VFloat value)] in
  e ← sendJSONMessage conn cmd;
  match e with
  | Some err =>
    trigger (Printf "[setJointParam] Failed to send command for joint %s: %v\n"
               [Str jointName; Errv err])
  | None =>
    '(resp, err) ← readResponseOf conn;
    match err with
    | Some err =>
      trigger
        (Printf "[setJointParam] Error reading response for joint %s: %v\n"
           [Str jointName; Errv err])
    | None =>
      trigger
        (Printf "[setJointParam] Joint %s param %s set to %v, response: %s\n"
           [Str jointName; Str paramName; Num value; Txt resp])
    end
  end.

(** The parameter set that locks a joint. *)
Definition stiffParams : list (string * float64) :=
  [("limit_upper", 0%float);
   ("limit_lower", 0%float);
   ("motor_enable", 1%float);
   ("motor_target_velocity", 0%float);
   ("motor_max_impulse", 1000%float)].

(** The goroutine of [stiffenAllJoints]. *)
Definition stiffenJoint (joint : CubeLink) (params : list (string * float64))
    (wg : WaitGroup) : prog unit :=
  (r ← trigger (Dial "tcp" serverAddr);
   match r with
   | inr err =>
     trigger (Printf "[stiffenAllJoints] Failed to connect for joint %s: %v\n"
                [Str (JointName joint); Errv err])
   | inl conn =>
     (w ← trigger (Write conn authMessage);
      match w with
      | Some err =>
        trigger
          (Printf "[stiffenAllJoints] Auth write error for joint %s: %v\n"
             [Str (JointName joint); Errv err])
      | None =>
        '(_, err) ← readResponseOf conn;
        match err with
        | Some err =>
          trigger
            (Printf "[stiffenAllJoints] Auth response error for joint %s: %v\n"
               [Str (JointName joint); Errv err])
        | None =>
          entries ← trigger (RangeMap params);
          forRange entries (fun '(paramName, val) =>
            setJointParam conn (JointName joint) paramName val)
        end
      end);;
     trigger (Close conn)
   end);;
  trigger (Done wg).

Definition SingleThreadedstiffenAllJoints : prog unit :=
  r ← trigger (Dial "tcp" serverAddr);
  match r with
  | inr err =>
    trigger (Println [Str "[stiffenAllJoints] Failed to connect:"; Errv err])
  | inl conn =>
    (w ← trigger (Write conn authMessage);
     match w with
     | Some err =>
       trigger (Println [Str "[stiffenAllJoints] Auth write error:";
                         Errv err])
     | None =>
       '(_, err) ← readResponseOf conn;
       match err with
       | Some err =>
         trigger
           (Println [Str "[stiffenAllJoints] Failed to read auth response:";
                     Errv err])
       | None =>
         let params := stiffParams in
         links ← trigger ReadCubeLinks;
         forRange links (fun link =>
           entries ← trigger (RangeMap params);
           forRange entries (fun '(param, value) =>
             setJointParam conn (JointName link) param value))
       end
     end);;
    trigger (Close conn)
  end.

Definition SingleTCPConnectionExamplestiffenAllJoints : prog unit :=
  let params := stiffParams in
  r ← trigger (Dial "tcp" serverAddr);
  match r with
  | inr err =>
    trigger (Println [Str "[stiffenAllJoints] Failed to connect:"; Errv err])
  | inl conn =>
    (w ← trigger (Write conn authMessage);
     match w with
     | Some err =>
       trigger (Println [Str "[stiffenAllJoints] Auth write error:";
                         Errv err])
     | None =>
       '(_, err) ← readResponseOf conn;
       match err with
       | Some err =>
         trigger (Println [Str "[stiffenAllJoints] Auth response error:";
                           Errv err])
       | None =>
         links ← trigger ReadCubeLinks;
         forRange links (fun link =>
           entries ← trigger (RangeMap params);
           forRange entries (fun '(paramName, val) =>
             setJointParam conn (JointName link) paramName val));;
         trigger
           (Println [Str ("[stiffenAllJoints] All joints have been stiffened "
                          ++ "using a single connection.")])
       end
     end);;
    trigger (Close conn)
  end.

Definition stiffenAllJoints : prog unit :=
  let params := stiffParams in
  wg ← trigger NewWaitGroup;
  links ← trigger ReadCubeLinks;
  forRange links (fun link =>
    trigger (Add wg 1);;
    trigger (Go (go_stiffen link params wg)));;
  trigger (Wait wg);;
  trigger (Println [Str "[stiffenAllJoints] All joints have been stiffened."]).

Definition setJointParams (conn : Conn) (jointName : string)
    (params : list (string * float64)) : prog unit :=
  let cmd : Message :=
    [("type", VString "set_joint_params");
     ("joint_name", VString jointName);
     ("params", VParams params)] in
  e ← sendJSONMessage conn cmd;
  match e with
  | Some err =>
    trigger (Printf "[setJointParams] Failed to send joint params for %s: %v\n"
               [Str jointName; Errv err])
  | None =>
    '(resp, err) ← readResponseOf conn;
    match err with
    | Some err =>
      trigger (Printf "[setJointParams] Read error for %s: %v\n"
                 [Str jointName; Errv err])
    | None =>
      trigger (Printf "[setJointParams] %s response: %s\n"
                 [Str jointName; Txt resp])
    end
  end.

(** The goroutine of [stiffenAllJointsBULK]. *)
Definition stiffenJointBULK (joint : CubeLink)
    (params : list (string * float64)) (wg : WaitGroup) : prog unit :=
  (r ← trigger (Dial "tcp" serverAddr);
   match r with
   | inr err =>
     trigger (Printf "[stiffenAllJoints] Failed to connect for joint %s: %v\n"
                [Str (JointName joint); Errv err])
   | inl conn =>
     (w ← trigger (Write conn authMessage);
      match w with
      | Some err =>
        trigger
          (Printf "[stiffenAllJoints] Auth write error for joint %s: %v\n"
             [Str (JointName joint); Errv err])
      | None =>
        '(_, err) ← readResponseOf conn;
        match err with
        | Some err =>
          trigger
            (Printf "[stiffenAllJoints] Auth response error for joint %s: %v\n"
               [Str (JointName joint); Errv err])
        | None => setJointParams conn (JointName joint) params
        end
      end);;
     trigger (Close conn)
   end);;
  trigger (Done wg).

Definition stiffenAllJointsBULK : prog unit :=
  let params := stiffParams in
  wg ← trigger NewWaitGroup;
  links ← trigger ReadCubeLinks;
  forRange links (fun link =>
    trigger (Add wg 1);;
    trigger (Go (go_stiffenBULK link params wg)));;
  trigger (Wait wg);;
  trigger (Println [Str "[stiffenAllJoints] All joints updated."]).

(** The goroutine of [setMouthColorYellow]. *)
Definition colorCube (name : string) (wg : WaitGroup) : prog unit :=
  (r ← trigger (Dial "tcp" serverAddr);
   match r with
   | inr err =>
     trigger (Printf "[Color] Failed to connect for cube %s: %v\n"
                [Str name; Errv err])
   | inl conn =>
     (w ← trigger (Write conn authMessage);
      match w with
      | Some err =>
        trigger (Printf "[Color] Auth write error for cube %s: %v\n"
                   [Str name; Errv err])
      | None =>
        '(_, err) ← readResponseOf conn;
        match err with
        | Some err =>
          trigger (Printf "[Color] Auth response error for cube %s: %v\n"
                     [Str name; Errv err])
        | None =>
          let colorMsg : Message :=
            [("type", VString "set_color");
             ("cube_name", VString name);
             ("hex", VString "#FFFF00")] in
          e ← sendJSONMessage conn colorMsg;
          match e with
          | Some err =>
            trigger
              (Printf "[Color] Failed to send color change for cube %s: %v\n"
                 [Str name; Errv err])
          | None => mret tt
          end
        end
      end);;
     trigger (Close conn)
   end);;
  trigger (Done wg).

Definition mouthCubes : list string :=
  ["leftmouth_BASE"; "rightmouth_BASE"; "body24_BASE"; "body22_BASE";
   "body9_BASE"; "body7_BASE"; "body17_BASE"; "head1_BASE"; "head3_BASE";
   "head2_BASE"; "head8_BASE"; "body2_BASE"].

Definition setMouthColorYellow : prog unit :=
  wg ← trigger NewWaitGroup;
  forRange mouthCubes (fun cubeName =>
    trigger (Add wg 1);;
    trigger (Go (go_color cubeName wg)));;
  trigger (Wait wg).

(** The inner loop of [linkCubeChains] over one chain:
    [for i := 0; i < len(chain)-1; i++], a comparison of signed ints, so
    that an empty chain is not entered.  An index out of range panics. *)
Definition linkChain (jointType : string) (chain : list string) : prog unit :=
  forCount (Z.to_nat (Z.of_nat (length chain) - 1)) 0 (fun i =>
    match chain !! i, chain !! (i + 1) with
    | Some cubeA, Some cubeB =>
      let jointName := Sprintf "joint_%s_%s_%s" [jointType; cubeA; cubeB] in
      trigger (AppendLink {| JointName := jointName;
                             CubeA := cubeA; CubeB := cubeB |})
    | _, _ =>
      x ← trigger (Panic "index out of range");
      match x : Empty_set with end
    end).

Definition linkCubeChains (chains : list (list string)) (jointType : string)
    (jointParams : list (string * float64)) : prog (option error) :=
  r ← trigger (Dial "tcp" serverAddr);
  match r with
  | inr err => mret (Some (Errorf "[linkCubeChains] Failed to connect" err))
  | inl conn =>
    res ←
      (w ← trigger (Write conn authMessage);
       match w with
       | Some err =>
         mret (Some (Errorf "[linkCubeChains] Auth write error" err))
       | None =>
         '(authResp, err) ← readResponseOf conn;
         match err with
         | Some err =>
           mret (Some (Errorf "[linkCubeChains] Failed to read auth response"
                         err))
         | None =>
           trigger (Println [Str "[linkCubeChains] Auth response:";
                             Txt authResp]);;
           let cmd : Message :=
             [("type", VString "link_cube_chains");
              ("chains", VChains chains);
              ("joint_type", VString jointType);
              ("joint_params", VParams jointParams)] in
           e ← sendJSONMessage conn cmd;
           match e with
           | Some err =>
             mret (Some (Errorf "[linkCubeChains] Failed to send command" err))
           | None =>
             '(resp, err) ← readResponseOf conn;
             match err with
             | Some err =>
               mret (Some (Errorf "[linkCubeChains] Error reading response"
                             err))
             | None =>
               trigger (Println [Str "[linkCubeChains] Server response:";
                                 Txt resp]);;
               trigger (Lock linkListMutex);;
               forRange chains (fun chain => linkChain jointType chain);;
               trigger (Unlock linkListMutex);; (* defer ...Unlock() *)
               mret None
             end
           end
         end
       end);
    trigger (Close conn);;                      (* defer conn.Close() *)
    mret res
  end.

(** The loop of [findClosestJoint], which returns from inside the loop. *)
Fixpoint scanLinks (targetCube : string) (links : list CubeLink)
  : prog string :=
  match links with
  | [] =>
    trigger (Printf "⚠️ No joint found for cube: %s\n" [Str targetCube]);;
    mret ""
  | link :: links' =>
    if String.eqb (CubeA link) targetCube || String.eqb (CubeB link) targetCube
    then
      trigger (Printf "🔍 Found joint: %s (%s <-> %s)\n"
                 [Str (JointName link); Str (CubeA link); Str (CubeB link)]);;
      mret (JointName link)
    else scanLinks targetCube links'
  end.

Definition findClosestJoint (targetCube : string) : prog string :=
  trigger (Lock linkListMutex);;
  links ← trigger ReadCubeLinks;
  jointName ← scanLinks targetCube links;
  trigger (Unlock linkListMutex);;              (* defer ...Unlock() *)
  mret jointName.

Definition rotateAllJointsForCube (targetCube : string) : prog unit :=
  trigger (Printf "🐾 Brute-forcing all joints for cube: %s\n"
             [Str targetCube]);;
  links ← trigger ReadCubeLinks;
  forRange links (fun link =>
    if String.eqb (CubeA link) targetCube || String.eqb (CubeB link) targetCube
    then
      trigger (Printf "➡️ Rotating joint: %s (%s <-> %s)\n"
                 [Str (JointName link); Str (CubeA link); Str (CubeB link)]);;
      r ← trigger (Dial "tcp" serverAddr);
      match r with
      | inr err =>
        trigger
          (Printf
             "[rotateAllJointsForCube] Failed to connect for joint %s: %v\n"
             [Str (JointName link); Errv err])           (* continue *)
      | inl conn =>
        w ← trigger (Write conn authMessage);
        match w with
        | Some _ => trigger (Close conn)                 (* continue *)
        | None =>
          _ ← readResponseOf conn;
          setJointParam conn (JointName link) "motor_enable" 1%float;;
          setJointParam conn (JointName link) "motor_target_velocity" 5%float;;
          setJointParam conn (JointName link) "motor_max_impulse" 1000%float;;
          trigger (Sleep (500 * Millisecond)%Z);;
          setJointParam conn (JointName link) "motor_target_velocity"
            (-5)%float;;
          trigger (Sleep (500 * Millisecond)%Z);;
          setJointParam conn (JointName link) "motor_target_velocity" 0%float;;
          trigger (Close conn);;
          trigger (Printf "✅ Done rotating joint: %s\n"
                     [Str (JointName link)])
        end
      end
    else mret tt).

Definition getJointsForCube (cubeName : string) : prog (list string) :=
  r ← trigger (Dial "tcp" serverAddr);
  match r with
  | inr err =>
    trigger (Println [Str "[getJointsForCube] Failed to connect:"; Errv err]);;
    mret []
  | inl conn =>
    res ←
      (w ← trigger (Write conn authMessage);
       match w with
       | Some err =>
         trigger (Println [Str "[getJointsForCube] Auth write error:";
                           Errv err]);;
         mret []
       | None =>
         '(_, err) ← readResponseOf conn;
         match err with
         | Some err =>
           trigger (Println [Str "[getJointsForCube] Auth response error:";
                             Errv err]);;
           mret []
         | None =>
           let cmd : Message :=
             [("type", VString "get_joints_for_cube");
              ("cube_name", VString cubeName)] in
           e ← sendJSONMessage conn cmd;
           match e with
           | Some err =>
             trigger (Println [Str "[getJointsForCube] Failed to send command:";
                               Errv err]);;
             mret []
           | None =>
             '(respRaw, err) ← readResponseOf conn;
             match err with
             | Some err =>
               trigger
                 (Println [Str "[getJointsForCube] Failed to read response:";
                           Errv err]);;
               mret []
             | None =>
               u ← trigger (Unmarshal respRaw);
               match u with
               | inr err =>
                 trigger
                   (Println [Str "[getJointsForCube] JSON unmarshal failed:";
                             Errv err]);;
                 mret []
               | inl resp => mret (Joints resp)
               end
             end
           end
         end
       end);
    trigger (Close conn);;
    mret res
  end.

(** [m[key] = v] on a map kept as a list of entries. *)
Fixpoint mapStore (key : string) (v : float64) (m : list (string * float64))
  : list (string * float64) :=
  match m with
  | [] => [(key, v)]
  | (k, x) :: m' =>
    if String.eqb k key then (k, v) :: m' else (k, x) :: mapStore key v m'
  end.

(** The goroutine of [rotateCubeJoints]: one actuation cycle of a joint.
    The inner map of [params] is updated in place between the sends. *)
Definition rotateJoint (jn : string) (velocity : float64)
    (duration : Duration) : prog unit :=
  r ← trigger (Dial "tcp" serverAddr);
  match r with
  | inr err =>
    trigger (Printf "[rotateCubeJoints] Connect failed: %v\n" [Errv err])
  | inl conn =>
    _ ← trigger (Write conn authMessage);
    _ ← readResponseOf conn;
    let inner : list (string * float64) :=
      [("motor_enable", 1%float);
       ("motor_target_velocity", velocity);
       ("motor_max_impulse", 500%float)] in
    let params (inner : list (string * float64)) : Message :=
      [("type", VString "set_joint_params");
       ("joint_name", VString jn);
       ("params", VParams inner)] in
    _ ← sendJSONMessage conn (params inner);
    _ ← readResponseOf conn;
    trigger (Sleep duration);;
    let inner := mapStore "motor_target_velocity" (- velocity)%float inner in
    _ ← sendJSONMessage conn (params inner);
    _ ← readResponseOf conn;
    trigger (Sleep duration);;
    let inner := mapStore "motor_target_velocity" 0%float inner in
    _ ← sendJSONMessage conn (params inner);
    _ ← readResponseOf conn;
    trigger (Printf "↩️ Completed joint cycle for: %s\n" [Str jn]);;
    trigger (Close conn)
  end.

Definition rotateCubeJoints (cubeName : string) (velocity : float64)
    (duration : Duration) : prog unit :=
  joints ← getJointsForCube cubeName;
  if length joints =? 0 then
    trigger (Printf "[rotateCubeJoints] No joints found for cube %s\n"
               [Str cubeName])
  else
    trigger (Printf "🦴 Found %d joints for %s. Applying rotation...\n"
               [Int (Z.of_nat (length joints)); Str cubeName]);;
    forRange joints (fun joint =>
      trigger (Go (go_rotate joint velocity duration))).

(** The code each goroutine runs. *)
Definition body (g : goroutine) : prog unit :=
  match g with
  | go_spawnCube cube wg => spawnCube cube wg
  | go_unfreeze name wg => unfreezeCube name wg
  | go_despawn name wg => despawnCube name wg
  | go_stiffen joint params wg => stiffenJoint joint params wg
  | go_stiffenBULK joint params wg => stiffenJointBULK joint params wg
  | go_color name wg => colorCube name wg
  | go_rotate jn velocity duration => rotateJoint jn velocity duration
  end.

(** ** The functions of the clients that the batches do not use *)

Definition Second : Duration := (1000 * Millisecond)%Z.

(** [handleCube] of the first client: the whole life of one entity over
    one connection. *)
Definition handleCube (cube : Cube) (wg : WaitGroup) : prog unit :=
  (r ← trigger (Dial "tcp" serverAddr);
   match r with
   | inr err => trigger (Println [Str "[Cube] Failed to connect:"; Errv err])
   | inl conn =>
     (w ← trigger (Write conn authMessage);
      match w with
      | Some err =>
        trigger (Println [Str "[Cube] Auth write error:"; Errv err])
      | None =>
        '(_, err) ← readResponseOf conn;
        match err with
        | Some err =>
          trigger (Println [Str "[Cube] Failed to read auth response:";
                            Errv err])
        | None =>
          let spawn : Message :=
            [("type", VString "spawn_cube");
             ("cube_name", VString (Name cube));
             ("position", VFloats (Position cube));
             ("rotation", VFloats [0%float; 0%float; 0%float]);
             ("is_base", VBool true)] in
          e ← sendJSONMessage conn spawn;
          match e with
          | Some err =>
            trigger (Println [Str "[Cube] Failed to spawn cube:"; Errv err])
          | None =>
            let fullCubeName := (Name cube ++ "_BASE")%string in
            trigger (Sleep (1 * Second)%Z);;
            let unfreeze : Message :=
              [("type", VString "freeze_cube");
               ("cube_name", VString fullCubeName);
               ("freeze", VBool false)] in
            e ← sendJSONMessage conn unfreeze;
            match e with
            | Some err =>
              trigger (Println [Str "[Cube] Failed to unfreeze cube:";
                                Errv err])
            | None =>
              trigger (Sleep (1 * Second)%Z);;
              let freeze : Message :=
                [("type", VString "freeze_cube");
                 ("cube_name", VString fullCubeName);
                 ("freeze", VBool true)] in
              e ← sendJSONMessage conn freeze;
              match e with
              | Some err =>
                trigger (Println [Str "[Cube] Failed to freeze cube:";
                                  Errv err])
              | None =>
                trigger (Sleep (2 * Second)%Z);;
                let despawn : Message :=
                  [("type", VString "despawn_cube");
                   ("cube_name", VString fullCubeName)] in
                e ← sendJSONMessage conn despawn;
                match e with
                | Some err =>
                  trigger (Println [Str "[Cube] Failed to despawn cube:";
                                    Errv err])
                | None => mret tt
                end
              end
            end
          end
        end
      end);;
     trigger (Close conn)                       (* defer conn.Close() *)
   end);;
  trigger (Done wg).                            (* defer wg.Done() *)

Definition testLinkBodyCubes (prefix jointType : string)
    (jointParams : list (string * float64)) : prog unit :=
  r ← trigger (Dial "tcp" serverAddr);
  match r with
  | inr err =>
    trigger (Println [Str "[testLinkBodyCubes] Error connecting:"; Errv err])
  | inl conn =>
    (w ← trigger (Write conn authMessage);
     match w with
     | Some err =>
       trigger (Println [Str "[testLinkBodyCubes] Auth write error:";
                         Errv err])
     | None =>
       '(authResp, err) ← readResponseOf conn;
       match err with
       | Some err =>
         trigger
           (Println [Str "[testLinkBodyCubes] Failed to read auth response:";
                     Errv err])
       | None =>
         trigger (Println [Str "[testLinkBodyCubes] Auth response:";
                           Txt authResp]);;
         let cmdMsg : Message :=
           [("type", VString "link_body_cubes");
            ("prefix", VString prefix);
            ("joint_type", VString jointType);
            ("joint_params", VParams jointParams)] in
         e ← sendJSONMessage conn cmdMsg;
         match e with
         | Some err =>
           trigger (Println [Str "[testLinkBodyCubes] Error sending command:";
                             Errv err])
         | None =>
           '(cmdResp, err) ← readResponseOf conn;
           match err with
           | Some err =>
             trigger
               (Println
                  [Str "[testLinkBodyCubes] Error reading command response:";
                   Errv err])
           | None =>
             trigger (Println [Str "[testLinkBodyCubes] Command response:";
                               Txt cmdResp])
           end
         end
       end
     end);;
    trigger (Close conn)                        (* defer conn.Close() *)
  end.

Definition rotateLegDemo (jointName : string) : prog unit :=
  r ← trigger (Dial "tcp" serverAddr);
  match r with
  | inr err =>
    trigger (Printf "[rotateLegDemo] Failed to connect: %v\n" [Errv err])
  | inl conn =>
    (w ← trigger (Write conn authMessage);
     match w with
     | Some err =>
       trigger (Println [Str "[rotateLegDemo] Auth write error:"; Errv err])
     | None =>
       '(_, err) ← readResponseOf conn;
       match err with
       | Some err =>
         trigger (Println [Str "[rotateLegDemo] Auth response error:";
                           Errv err])
       | None =>
         trigger (Println [Str "↪️ Rotating forward..."]);;
         setJointParam conn jointName "motor_enable" 1%float;;
         setJointParam conn jointName "motor_target_velocity" 5%float;;
         setJointParam conn jointName "motor_max_impulse" 1000%float;;
         trigger (Sleep (1 * Second)%Z);;
         trigger (Println [Str "↩️ Rotating back..."]);;
         setJointParam conn jointName "motor_target_velocity" (-5)%float;;
         trigger (Sleep (1 * Second)%Z);;
         setJointParam conn jointName "motor_target_velocity" 0%float;;
         trigger (Println [Str "🛑 Leg motion complete."])
       end
     end);;
    trigger (Close conn)                        (* defer conn.Close() *)
  end.

Definition rotateCube (cubeName : string) (rotationDelta : list float64)
  : prog unit :=
  r ← trigger (Dial "tcp" serverAddr);
  match r with
  | inr err =>
    trigger (Printf "[rotateCube] Failed to connect: %v\n" [Errv err])
  | inl conn =>
    (w ← trigger (Write conn authMessage);
     match w with
     | Some err =>
       trigger (Println [Str "[rotateCube] Auth write error:"; Errv err])
     | None =>
       '(_, err) ← readResponseOf conn;
       match err with
       | Some err =>
         trigger (Println [Str "[rotateCube] Auth response error:"; Errv err])
       | None =>
         let cmd : Message :=
           [("type", VString "apply_force");
            ("rotate", VFloats rotationDelta);
            ("target", VString cubeName)] in
         e ← sendJSONMessage conn cmd;
         match e with
         | Some err =>
           trigger (Printf "[rotateCube] Failed to send rotate command: %v\n"
                      [Errv err])
         | None =>
           '(resp, err) ← readResponseOf conn;
           match err with
           | Some err =>
             trigger
               (Printf "[rotateCube] Failed to read rotate response: %v\n"
                  [Errv err])
           | None =>
             trigger (Printf "[rotateCube] Server response: %s\n" [Txt resp])
           end
         end
       end
     end);;
    trigger (Close conn)                        (* defer conn.Close() *)
  end.

(* ================================================================== *)
(** * Part 3. The meaning of events *)
(* ================================================================== *)

(** What the client does not decide: the network, [encoding/json] and the
    run-time's map order.  The network's answers are indexed by the moment
    ([clock]) at which they are asked for. *)
Record Env := {
  dialed : nat -> option error;            (* [None]: connected *)
  written : nat -> option error;           (* [None]: written *)
  delivered : nat -> Stream;
  json_Marshal : Message -> bytes + error;
  json_Unmarshal : bytes -> JointsResponse + error;
  map_order : list (string * float64) -> list (string * float64)
}.

(** An event together with the answer it got. *)
Record obs := Obs { obs_type : Type; obs_event : event obs_type;
                    obs_answer : obs_type }.
Arguments Obs {obs_type} obs_event obs_answer.

Record World := {
  globalCubeList : list string;
  globalCubeLinks : list CubeLink;
  held : mutex -> bool;
  waitGroups : list nat;                   (* the counter of each group *)
  clock : nat;
  trace : list obs
}.

Definition mutex_eqb (a b : mutex) : bool :=
  match a, b with
  | cubeListMutex, cubeListMutex | linkListMutex, linkListMutex => true
  | _, _ => false
  end.

Definition set_cubes (w : World) (l : list string) : World :=
  {| globalCubeList := l; globalCubeLinks := globalCubeLinks w;
     held := held w; waitGroups := waitGroups w;
     clock := clock w; trace := trace w |}.

Definition set_links (w : World) (l : list CubeLink) : World :=
  {| globalCubeList := globalCubeList w; globalCubeLinks := l;
     held := held w; waitGroups := waitGroups w;
     clock := clock w; trace := trace w |}.

Definition set_held (w : World) (m : mutex) (b : bool) : World :=
  {| globalCubeList := globalCubeList w; globalCubeLinks := globalCubeLinks w;
     held := fun m' => if mutex_eqb m' m then b else held w m';
     waitGroups := waitGroups w; clock := clock w; trace := trace w |}.

Definition set_groups (w : World) (l : list nat) : World :=
  {| globalCubeList := globalCubeList w; globalCubeLinks := globalCubeLinks w;
     held := held w; waitGroups := l; clock := clock w; trace := trace w |}.

(** Every event takes one tick and is recorded with its answer. *)
Definition record {X : Type} (e : event X) (x : X) (w : World) : World :=
  {| globalCubeList := globalCubeList w; globalCubeLinks := globalCubeLinks w;
     held := held w; waitGroups := waitGroups w;
     clock := S (clock w); trace := trace w ++ [Obs e x] |}.

(** The state change and the answer of an enabled event; [None] when the
    event cannot happen now: [Lock] on a held mutex and [Wait] on a
    positive counter block, and [Unlock] of a free mutex, [Done] on a zero
    counter and [Panic] stop the program. *)
Definition respond (env : Env) {X : Type} (e : event X) (w : World)
  : option (X * World) :=
  match e in event X return option (X * World) with
  | Dial _ _ =>
    match dialed env (clock w) with
    | None => Some (inl (clock w), w)
    | Some err => Some (inr err, w)
    end
  | Write _ _ => Some (written env (clock w), w)
  | Incoming _ => Some (delivered env (clock w), w)
  | Close _ => Some (tt, w)
  | Marshal msg => Some (json_Marshal env msg, w)
  | Unmarshal data => Some (json_Unmarshal env data, w)
  | RangeMap m => Some (map_order env m, w)
  | Lock m => if held w m then None else Some (tt, set_held w m true)
  | Unlock m => if held w m then Some (tt, set_held w m false) else None
  | ReadCubeList => Some (globalCubeList w, w)
  | AppendCube name => Some (tt, set_cubes w (globalCubeList w ++ [name]))
  | ReadCubeLinks => Some (globalCubeLinks w, w)
  | AppendLink link => Some (tt, set_links w (globalCubeLinks w ++ [link]))
  | NewWaitGroup =>
    Some (length (waitGroups w), set_groups w (waitGroups w ++ [0]))
  | Add wg delta =>
    match waitGroups w !! wg with
    | Some n => Some (tt, set_groups w (<[wg := n + delta]> (waitGroups w)))
    | None => None
    end
  | Done wg =>
    match waitGroups w !! wg with
    | Some (S n) => Some (tt, set_groups w (<[wg := n]> (waitGroups w)))
    | _ => None
    end
  | Wait wg =>
    match waitGroups w !! wg with
    | Some O => Some (tt, w)
    | _ => None
    end
  | Go _ => Some (tt, w)
  | Println _ => Some (tt, w)
  | Printf _ _ => Some (tt, w)
  | Sleep _ => Some (tt, w)
  | Panic _ => None
  end.

Definition handle (env : Env) {X : Type} (e : event X) (w : World)
  : option (X * World) :=
  match respond env e w with
  | Some (x, w') => Some (x, record e x w')
  | None => None
  end.

(** One thread run alone until it returns; [None] when it blocks or
    stops. *)
Fixpoint run (env : Env) {A : Type} (p : prog A) (w : World)
  : option (A * World) :=
  match p with
  | Ret a => Some (a, w)
  | Vis e k =>
    match handle env e w with
    | Some (x, w') => run env (k x) w'
    | None => None
    end
  end.

(** The goroutines an event starts. *)
Definition started {X : Type} (e : event X) : list (prog unit) :=
  match e with
  | Go g => [body g]
  | _ => []
  end.

(** A pool of goroutines over one world; thread 0 is the caller. *)
Record Pool := { world : World; threads : list (prog unit) }.

(** Thread [tid] takes its next step, if it has one and it is enabled. *)
Definition step (env : Env) (s : Pool) (tid : nat) : Pool :=
  match threads s !! tid with
  | Some (Vis e k) =>
    match handle env e (world s) with
    | Some (x, w') =>
      {| world := w'; threads := <[tid := k x]> (threads s) ++ started e |}
    | None => s
    end
  | _ => s
  end.

(** An interleaving: the threads scheduled, in order. *)
Definition exec (env : Env) (sched : list nat) (s : Pool) : Pool :=
  fold_left (step env) sched s.

Definition returned (p : prog unit) : bool :=
  match p with
  | Ret _ => true
  | Vis _ _ => false
  end.

(** ** Notions used to state the properties *)

(** The longest prefix of [s] that ends in [d]. *)
Fixpoint complete (d : ascii) (s : bytes) : bytes :=
  match s with
  | [] => []
  | c :: s' => if existsb (Ascii.eqb d) s then c :: complete d s' else []
  end.

(** The text of a JSON object: [{ ... }]. *)
Definition object_text (data : bytes) : Prop :=
  exists members, data = "{"%char :: members ++ ["}"%char].

(** A byte that is an ASCII character and not a space. *)
Definition solid (c : ascii) : bool := (code c <? 128) && negb (space1 c).

(** The payloads of the [conn.Write] calls in a trace. *)
Definition sent (tr : list obs) : list bytes :=
  flat_map (fun o =>
    match obs_event o with
    | Write _ data => [data]
    | _ => []
    end) tr.

(** The spawn round-trip of a [spawnCube] call that starts at time [t]
    succeeds: the dial, the write of the password, the read of the
    answer, and the encoding and the write of the spawn command. *)
Definition spawnSucceeds (env : Env) (t : nat) (cube : Cube) : bool :=
  match dialed env t, written env (1 + t),
        snd (readResponse (delivered env (2 + t))),
        json_Marshal env (spawnCommand cube), written env (4 + t) with
  | None, None, None, inl _, None => true
  | _, _, _, _, _ => false
  end.

(** The number of [net.Dial] calls in a trace. *)
Definition dials (tr : list obs) : nat :=
  length (flat_map (fun o =>
    match obs_event o with
    | Dial _ _ => [tt]
    | _ => []
    end) tr).

(** The names and links appended to the registry in a trace. *)
Definition appendedCubes (tr : list obs) : list string :=
  flat_map (fun o =>
    match obs_event o with
    | AppendCube name => [name]
    | _ => []
    end) tr.

Definition appendedLinks (tr : list obs) : list CubeLink :=
  flat_map (fun o =>
    match obs_event o with
    | AppendLink link => [link]
    | _ => []
    end) tr.






(** ** Shapes of programs *)

(** Every event a program can raise, whatever the answers, satisfies
    [P]. *)
Inductive all_events {A : Type} (P : forall X, event X -> Prop)
  : prog A -> Prop :=
| all_ret a : all_events P (Ret a)
| all_vis X (e : event X) k :
    P X e -> (forall x, all_events P (k x)) -> all_events P (Vis e k).

(** An event that leaves wait groups alone and starts no goroutine. *)
Definition quiet (X : Type) (e : event X) : Prop :=
  match e with
  | NewWaitGroup | Add _ _ | Done _ | Wait _ | Go _ => False
  | _ => True
  end.

(** A quiet event that is always enabled. *)
Definition free (X : Type) (e : event X) : Prop :=
  match e with
  | NewWaitGroup | Add _ _ | Done _ | Wait _ | Go _ => False
  | Lock _ | Unlock _ | Panic _ => False
  | _ => True
  end.

(** An event that does not write to the registry. *)
Definition reading (X : Type) (e : event X) : Prop :=
  match e with
  | AppendCube _ | AppendLink _ => False
  | _ => True
  end.

(** A goroutine of a batch over the wait group [wg]: events that satisfy
    [P], then [wg.Done()] once, as its last act on every path. *)
Inductive worker (P : forall X, event X -> Prop) (wg : WaitGroup)
  : prog unit -> Prop :=
| worker_done k : (forall x, k x = Ret tt) -> worker P wg (Vis (Done wg) k)
| worker_vis X (e : event X) k :
    P X e -> (forall x, worker P wg (k x)) -> worker P wg (Vis e k).

(** The caller of a batch: [wg.Add(1); go g] for each goroutine of [gs]
    in turn, then [wg.Wait()], then a tail of free events. *)
Inductive fanning (wg : WaitGroup) : list goroutine -> prog unit -> Prop :=
| fan_wait k :
    (forall x, all_events free (k x)) -> fanning wg [] (Vis (Wait wg) k)
| fan_add g gs k :
    (forall x, launching wg g gs (k x)) ->
    fanning wg (g :: gs) (Vis (Add wg 1) k)
with launching (wg : WaitGroup)
  : goroutine -> list goroutine -> prog unit -> Prop :=
| launch g gs k :
    (forall x, fanning wg gs (k x)) -> launching wg g gs (Vis (Go g) k).

(** The goroutines of a pool that have not returned. *)
Fixpoint live (units : list (prog unit)) : nat :=
  match units with
  | [] => 0
  | u :: units' => (if returned u then 0 else 1) + live units'
  end.

(** Where the caller of a batch is: about to add the goroutines [gs] one
    by one and then wait; between [wg.Add(1)] and [go g]; past
    [wg.Wait()]. *)
Inductive phase :=
| Fanning (gs : list goroutine)
| Launching (g : goroutine) (gs : list goroutine)
| Joined.

Definition added (ph : phase) : nat :=
  match ph with
  | Launching _ _ => 1
  | _ => 0
  end.

Definition remaining (ph : phase) : list goroutine :=
  match ph with
  | Fanning gs => gs
  | Launching g gs => g :: gs
  | Joined => []
  end.

Definition caller_in (wg : WaitGroup) (ph : phase) (main : prog unit) : Prop :=
  match ph with
  | Fanning gs => fanning wg gs main
  | Launching g gs => launching wg g gs main
  | Joined => all_events free main
  end.

(** The state of a batch of [total] goroutines over [wg]: the caller is
    thread 0, the goroutines started so far follow it, and the counter of
    [wg] is the number of goroutines that have not returned, plus one
    between [wg.Add(1)] and the [go] that follows it. *)
Inductive batch_inv (P : forall X, event X -> Prop) (wg : WaitGroup)
    (total : nat) (ph : phase) (s : Pool) : Prop :=
| batch_state main units :
    threads s = main :: units ->
    caller_in wg ph main ->
    Forall (fun g => worker P wg (body g)) (remaining ph) ->
    Forall (fun u => u = Ret tt \/ worker P wg u) units ->
    waitGroups (world s) !! wg = Some (live units + added ph) ->
    length units + length (remaining ph) = total ->
    (ph = Joined -> live units = 0) ->
    batch_inv P wg total ph s.

(** The caller's phase after its next step, when [n] goroutines have not
    returned. *)
Definition advance (ph : phase) (n : nat) : phase :=
  match ph with
  | Fanning (g :: gs) => Launching g gs
  | Fanning [] => match n with O => Joined | S _ => Fanning [] end
  | Launching g gs => Fanning gs
  | Joined => Joined
  end.

(** The barrier of a batch of [total] goroutines, at a state [s] of its
    pool: when the caller has returned, all [total] goroutines have been
    started and have returned; and the caller can still come to return. *)
Definition barrier (env : Env) (total : nat) (s : Pool) : Prop :=
  (threads s !! 0 = Some (Ret tt) ->
   length (threads s) = S total /\
   Forall (fun t => returned t = true) (threads s)) /\
  (exists sched, threads (exec env sched s) !! 0 = Some (Ret tt)).

(** The goroutines started in a trace. *)
Definition launched (tr : list obs) : list goroutine :=
  flat_map (fun o =>
    match obs_event o with
    | Go g => [g]
    | _ => []
    end) tr.

(** An event that neither writes to the registry nor starts a goroutine;
    and one that does not write to the registry and starts only
    goroutines made of such events. *)
Definition still (X : Type) (e : event X) : Prop :=
  reading X e /\ started e = [].

Definition harmless (X : Type) (e : event X) : Prop :=
  reading X e /\ Forall (all_events still) (started e).

(** An event that is not an operation of a wait group. *)
Definition groupless (X : Type) (e : event X) : Prop :=
  match e with
  | NewWaitGroup | Add _ _ | Done _ | Wait _ => False
  | _ => True
  end.

(** Sample inputs: an environment in which everything succeeds and the
    server answers every request with an empty object, and a world with
    nothing in it but one wait group that counts one goroutine. *)
Definition sampleEnv : Env :=
  {| dialed := fun _ => None;
     written := fun _ => None;
     delivered := fun _ =>
       {| chunks := [B "{}<???DONE???---"]; closing := ErrDeadline |};
     json_Marshal := fun _ => inl (B "{}");
     json_Unmarshal := fun _ =>
       inl {| Type_ := "joints"; CubeName := "tail3_BASE";
              Joints := ["j1"; "j2"] |};
     map_order := fun m => m |}.

Definition sampleWorld : World :=
  {| globalCubeList := []; globalCubeLinks := [];
     held := fun _ => false; waitGroups := [1]; clock := 0; trace := [] |}.

(** An environment in which every second dial fails, and a world with
    two registered entities and two links. *)
Definition flakyEnv : Env :=
  {| dialed := fun t => if Nat.even t then Some (Err "connection refused")
                        else None;
     written := written sampleEnv;
     delivered := delivered sampleEnv;
     json_Marshal := json_Marshal sampleEnv;
     json_Unmarshal := json_Unmarshal sampleEnv;
     map_order := map_order sampleEnv |}.

Definition pairWorld : World :=
  {| globalCubeList := ["tail1_BASE"; "tail2_BASE"];
     globalCubeLinks :=
       [{| JointName := "tail_joint1"; CubeA := "tail1_BASE";
           CubeB := "tail2_BASE" |};
        {| JointName := "tail_joint2"; CubeA := "tail2_BASE";
           CubeB := "tail3_BASE" |}];
     held := fun _ => false; waitGroups := []; clock := 0; trace := [] |}.

(** A schedule that lets the caller start two goroutines, runs each of
    them to its end, and lets the caller finish. *)
Definition pairSchedule : list nat :=
  repeat 0 6 ++ repeat 1 40 ++ repeat 2 40 ++ repeat 0 3.

(** ** Further notions: what a trace shows *)

(** The connections opened (the successful dials) and closed in a
    trace, the messages handed to [json.Marshal], and the pauses. *)
Definition opened (tr : list obs) : list Conn :=
  flat_map (fun o =>
    match o with
    | Obs e x =>
      match e in event X return X -> list Conn with
      | Dial _ _ => fun r => match r with inl conn => [conn] | inr _ => [] end
      | _ => fun _ => []
      end x
    end) tr.

Definition closed (tr : list obs) : list Conn :=
  flat_map (fun o =>
    match obs_event o with
    | Close conn => [conn]
    | _ => []
    end) tr.

Definition marshalled (tr : list obs) : list Message :=
  flat_map (fun o =>
    match obs_event o with
    | Marshal msg => [msg]
    | _ => []
    end) tr.

Definition slept (tr : list obs) : list Duration :=
  flat_map (fun o =>
    match obs_event o with
    | Sleep d => [d]
    | _ => []
    end) tr.



(** An answer that reports a failure: a dial, a write, an encoding or a
    decoding that returned an error. *)
Definition failed (o : obs) : bool :=
  match o with
  | Obs e x =>
    match e in event X return X -> bool with
    | Dial _ _ => fun r => match r with inr _ => true | inl _ => false end
    | Write _ _ => fun r => match r with Some _ => true | None => false end
    | Marshal _ => fun r => match r with inr _ => true | inl _ => false end
    | Unmarshal _ => fun r => match r with inr _ => true | inl _ => false end
    | _ => fun _ => false
    end x
  end.

(** Whatever the answers to its events, the program [p] returns only
    with a trace [tr] and a result [a] such that [P tr a]. *)
Fixpoint ensures {A : Type} (p : prog A) (P : list obs -> A -> Prop) : Prop :=
  match p with
  | Ret a => P [] a
  | Vis e k => forall x, ensures (k x) (fun tr a => P (Obs e x :: tr) a)
  end.


(** ** The discipline of connections

    The connection a thread holds after an observation, when it held
    [st] before; [None] when the observation breaks the discipline: a
    dial while a connection is held, or a write, a read or a close on a
    connection that is not the one held. *)
Definition conn_step (st : option Conn) (o : obs) : option (option Conn) :=
  match o with
  | Obs e x =>
    match e in event X return X -> option (option Conn) with
    | Dial _ _ => fun r =>
      match st, r with
      | None, inl conn => Some (Some conn)
      | None, inr _ => Some None
      | Some _, _ => None
      end
    | Write conn _ | Incoming conn => fun _ =>
      match st with
      | Some held => if held =? conn then Some st else None
      | None => None
      end
    | Close conn => fun _ =>
      match st with
      | Some held => if held =? conn then Some None else None
      | None => None
      end
    | _ => fun _ => Some st
    end x
  end.

Fixpoint follow (st : option Conn) (tr : list obs) : option (option Conn) :=
  match tr with
  | [] => Some st
  | o :: tr' =>
    match conn_step st o with
    | Some st' => follow st' tr'
    | None => None
    end
  end.

(** An event that does not use the network. *)
Definition offline (X : Type) (e : event X) : Prop :=
  match e with
  | Dial _ _ | Write _ _ | Incoming _ | Close _ => False
  | _ => True
  end.

(** A program that keeps the discipline on every path, from holding
    [st] to holding [st']. *)
Inductive tidy {A : Type} : option Conn -> option Conn -> prog A -> Prop :=
| tidy_ret st a : tidy st st (Ret a)
| tidy_dial st' network address k :
    (forall conn, tidy (Some conn) st' (k (inl conn))) ->
    (forall err, tidy None st' (k (inr err))) ->
    tidy None st' (Vis (Dial network address) k)
| tidy_write conn st' data k :
    (forall x, tidy (Some conn) st' (k x)) ->
    tidy (Some conn) st' (Vis (Write conn data) k)
| tidy_incoming conn st' k :
    (forall x, tidy (Some conn) st' (k x)) ->
    tidy (Some conn) st' (Vis (Incoming conn) k)
| tidy_close conn st' k :
    (forall x, tidy None st' (k x)) ->
    tidy (Some conn) st' (Vis (Close conn) k)
| tidy_other st st' X (e : event X) k :
    offline X e -> (forall x, tidy st st' (k x)) ->
    tidy st st' (Vis e k).

(** The functions of the two clients that use the network, and the
    goroutines of their batches. *)
Inductive operation : forall A : Type, prog A -> Prop :=
| op_handleCube cube wg : operation unit (handleCube cube wg)
| op_spawnCube cube wg : operation unit (spawnCube cube wg)
| op_unfreeze name wg : operation unit (unfreezeCube name wg)
| op_despawn name wg : operation unit (despawnCube name wg)
| op_linkCubes a b jointType jointName :
    operation unit (linkCubes a b jointType jointName)
| op_stiffen joint params wg : operation unit (stiffenJoint joint params wg)
| op_SingleThreaded : operation unit SingleThreadedstiffenAllJoints
| op_SingleTCP : operation unit SingleTCPConnectionExamplestiffenAllJoints
| op_stiffenBULK joint params wg :
    operation unit (stiffenJointBULK joint params wg)
| op_color name wg : operation unit (colorCube name wg)
| op_testLink prefix jointType jointParams :
    operation unit (testLinkBodyCubes prefix jointType jointParams)
| op_linkCubeChains chains jointType jointParams :
    operation (option error) (linkCubeChains chains jointType jointParams)
| op_rotateLegDemo jointName : operation unit (rotateLegDemo jointName)
| op_rotateCube cubeName rotationDelta :
    operation unit (rotateCube cubeName rotationDelta)
| op_rotateAll targetCube : operation unit (rotateAllJointsForCube targetCube)
| op_getJoints cubeName : operation (list string) (getJointsForCube cubeName)
| op_rotateJoint jn velocity duration :
    operation unit (rotateJoint jn velocity duration)
| op_rotateCubeJoints cubeName velocity duration :
    operation unit (rotateCubeJoints cubeName velocity duration).

(** The command [setJointParam] sends, and the commands that stiffen the
    joints of [links] when the map of parameters is visited in the order
    [entries]. *)
Definition paramCommand (jointName paramName : string) (value : float64)
  : Message :=
  [("type", VString "set_joint_param");
   ("joint_name", VString jointName);
   ("param_name", VString paramName);
   ("value", VFloat value)].





(** ** Further notions: the goroutines of a batch

    What the trace of a pool shows of a batch that has to start the
    goroutines [all], when [before] were started before it: the
    goroutines started since are the first of [all], in order, and all
    of [all] once the caller has returned. *)
Definition targets (before all : list goroutine) (s : Pool) : Prop :=
  exists done,
    launched (trace (world s)) = before ++ done /\
    done `prefix_of` all /\
    (threads s !! 0 = Some (Ret tt) -> done = all).

(** The same while the caller is in the phase [ph]: what remains of
    [all] is what the caller has still to start. *)
Definition batch_log (before all : list goroutine) (ph : phase) (s : Pool)
  : Prop :=
  exists done,
    launched (trace (world s)) = before ++ done /\
    done ++ remaining ph = all.

(** A goroutine [p] of a batch over [wg], run on its own from [w] where
    [wg] counts [S n], carries the one command [msg]: it returns,
    having dialled once and encoded [msg] at most once -- exactly once
    when nothing failed --, taken its count off [wg] and left the
    registries alone. *)
Definition carries (env : Env) (w : World) (wg : WaitGroup) (n : nat)
    (p : prog unit) (msg : Message) : Prop :=
  exists w' new,
    run env p w = Some (tt, w') /\
    trace w' = trace w ++ new /\
    globalCubeList w' = globalCubeList w /\
    globalCubeLinks w' = globalCubeLinks w /\
    waitGroups w' = <[wg := n]> (waitGroups w) /\
    dials new = 1 /\
    marshalled new `prefix_of` [msg] /\
    (existsb failed new = false -> marshalled new = [msg]).

(* ================================================================== *)
(** * Part 4. Properties *)
(* ================================================================== *)

(** ** Facts about the string functions *)

Section StringFacts.

Lemma HasPrefix_true s p : HasPrefix s p = true -> exists t, s = p ++ t.
Proof.
  revert s; induction p as [|a p IH]; intros s H.
  - exists s. reflexivity.
  - destruct s as [|c s]; simpl in H; [discriminate|].
    apply andb_true_iff in H as [Hc Hp].
    apply Ascii.eqb_eq in Hc. subst c.
    destruct (IH _ Hp) as [t ->]. exists t. reflexivity.
Qed.

Lemma HasPrefix_app p t : HasPrefix (p ++ t) p = true.
Proof.
  induction p as [|a p IH]; simpl; [reflexivity|].
  rewrite Ascii.eqb_refl. exact IH.
Qed.

Lemma Contains_true s sub :
  Contains s sub = true -> exists a b, s = a ++ sub ++ b.
Proof.
  induction s as [|c s IH]; simpl; intros H.
  - rewrite orb_false_r in H. apply HasPrefix_true in H as [t Ht].
    exists [], t. exact Ht.
  - apply orb_true_iff in H as [H|H].
    + apply HasPrefix_true in H as [t Ht]. exists [], t. exact Ht.
    + destruct (IH H) as (a & b & ->). exists (c :: a), b. reflexivity.
Qed.

Lemma HasPrefix_refl s : HasPrefix s s = true.
Proof.
  induction s as [|c s IH]; simpl; [reflexivity|].
  rewrite Ascii.eqb_refl. exact IH.
Qed.

Lemma Contains_prefix s sub : HasPrefix s sub = true -> Contains s sub = true.
Proof. destruct s; simpl; intros ->; reflexivity. Qed.

Lemma Contains_app a sub b : Contains (a ++ sub ++ b) sub = true.
Proof.
  induction a as [|c a IH].
  - apply Contains_prefix. exact (HasPrefix_app sub b).
  - simpl. rewrite IH. apply orb_true_r.
Qed.

(** A string in which [d] occurs before the last position is not of the
    form [pre ++ [d]] with [d] absent from [pre]. *)
Lemma inner_occurrence (d : ascii) x y pre :
  x ++ d :: y = pre ++ [d] -> y <> [] -> In d pre.
Proof.
  intros E Hy.
  destruct (exists_last Hy) as (y' & z & ->).
  change (x ++ d :: y' ++ [z]) with (x ++ (d :: y') ++ [z]) in E.
  rewrite app_assoc in E.
  apply app_inj_tail in E as [<- _].
  apply in_or_app. right. left. reflexivity.
Qed.

(** ** cut *)

Lemma cut_Some d s line rest :
  cut d s = Some (line, rest) ->
  exists pre, line = pre ++ [d] /\ ~ In d pre /\ s = line ++ rest.
Proof.
  revert line rest; induction s as [|c s IH]; simpl; intros line rest H.
  - discriminate.
  - destruct (Ascii.eqb c d) eqn:Ec.
    + apply Ascii.eqb_eq in Ec. subst c. inversion H; subst.
      exists []. simpl. auto.
    + destruct (cut d s) as [[l r]|]; [|discriminate].
      inversion H; subst.
      destruct (IH _ _ eq_refl) as (pre & -> & Hn & ->).
      exists (c :: pre). simpl. repeat split; auto.
      intros [->|Hin]; [|auto].
      rewrite Ascii.eqb_refl in Ec. discriminate.
Qed.

Lemma cut_None d s : cut d s = None -> ~ In d s.
Proof.
  induction s as [|c s IH]; simpl; intros H; [tauto|].
  destruct (Ascii.eqb c d) eqn:Ec; [discriminate|].
  destruct (cut d s) as [[l r]|]; [discriminate|].
  intros [->|Hin]; [|exact (IH eq_refl Hin)].
  rewrite Ascii.eqb_refl in Ec. discriminate.
Qed.

Lemma cut_app_Some d s t line rest :
  cut d s = Some (line, rest) -> cut d (s ++ t) = Some (line, rest ++ t).
Proof.
  revert line rest; induction s as [|c s IH]; simpl; intros line rest H.
  - discriminate.
  - destruct (Ascii.eqb c d).
    + inversion H; subst. reflexivity.
    + destruct (cut d s) as [[l r]|]; [|discriminate].
      inversion H; subst. rewrite (IH _ _ eq_refl). reflexivity.
Qed.

Lemma cut_app_None d s t :
  cut d s = None ->
  cut d (s ++ t) =
  match cut d t with
  | Some (line, rest) => Some (s ++ line, rest)
  | None => None
  end.
Proof.
  induction s as [|c s IH]; simpl; intros H.
  - destruct (cut d t) as [[l r]|]; reflexivity.
  - destruct (Ascii.eqb c d); [discriminate|].
    destruct (cut d s) as [[l r]|]; [discriminate|].
    rewrite (IH eq_refl). destruct (cut d t) as [[l r]|]; reflexivity.
Qed.

(** ** The sentinel test of the loop

    The sentinel ends in three dashes, and a line of [ReadString('-')]
    ends at its first dash: no such line contains the sentinel. *)
Lemma line_never_contains_delimiter pre :
  ~ In "-"%char pre -> Contains (pre ++ ["-"%char]) delimiter = false.
Proof.
  intros Hn. destruct (Contains _ _) eqn:E; [|reflexivity].
  apply Contains_true in E as (a & b & E). exfalso. apply Hn.
  change delimiter with (B "<???DONE???" ++ "-"%char :: B "--") in E.
  rewrite <- app_assoc in E. rewrite app_assoc in E.
  simpl in E. symmetry in E.
  eapply inner_occurrence; [exact E|discriminate].
Qed.

End StringFacts.

(** ** Facts about the reader and the loop *)

Section ReaderFacts.

Lemma readLoop_eq reader builder :
  readLoop reader builder =
  match ReadString reader "-" with
  | (_, Some _, _) => builder
  | (line, None, reader') =>
    if Contains line delimiter
    then builder ++ line
    else readLoop reader' (builder ++ line)
  end.
Proof.
  rewrite readLoop_equation_1.
  remember (inspect (ReadString reader "-")) as i eqn:Hi. clear Hi.
  destruct i as [[[line [e|]] r'] H]; simpl; rewrite H; reflexivity.
Qed.

(** A line that [ReadString] returns without an error ends at its first
    [delim]. *)
Lemma readSlice_line delim fail src : forall buf empty line rest,
  readSlice delim fail buf empty src = (line, None, rest) ->
  exists pre, line = pre ++ [delim] /\ ~ In delim pre.
Proof.
  induction src as [|chunk src IH]; intros buf empty line rest; simpl.
  - destruct (cut delim buf) as [[l r]|] eqn:E; [|discriminate].
    intros H; inversion H; subst.
    apply cut_Some in E as (pre & -> & Hn & _). eauto.
  - destruct (cut delim buf) as [[l r]|] eqn:E.
    + intros H; inversion H; subst.
      apply cut_Some in E as (pre & -> & Hn & _). eauto.
    + destruct chunk as [|c chunk].
      * destruct (Nat.eqb _ _); [discriminate|]. apply IH.
      * apply IH.
Qed.

(** A successful [ReadString] splits the data still to come. *)
Lemma readSlice_split delim fail src : forall buf empty line buf' src',
  readSlice delim fail buf empty src = (line, None, (buf', src')) ->
  buf ++ concat src = line ++ buf' ++ concat src'.
Proof.
  induction src as [|chunk src IH]; intros buf empty line buf' src'; simpl.
  - destruct (cut delim buf) as [[l r]|] eqn:E; [|discriminate].
    intros H; inversion H; subst.
    apply cut_Some in E as (pre & _ & _ & ->).
    rewrite !app_nil_r. reflexivity.
  - destruct (cut delim buf) as [[l r]|] eqn:E.
    + intros H; inversion H; subst.
      apply cut_Some in E as (pre & _ & _ & ->).
      simpl. rewrite <- !app_assoc. reflexivity.
    + destruct chunk as [|c chunk].
      * destruct (Nat.eqb _ _); [discriminate|].
        intros H. apply IH in H. exact H.
      * intros H. apply IH in H. rewrite <- app_assoc in H. exact H.
Qed.

(** Whatever the stream, the loop appends to the builder a prefix of
    the data still to come, made of complete lines: it is empty or ends
    in a dash. *)
Lemma readLoop_prefix : forall n reader builder,
  pending reader < n ->
  exists acc, readLoop reader builder = builder ++ acc /\
              acc `prefix_of` unread reader ++ concat (source reader) /\
              (acc = [] \/ exists pre, acc = pre ++ ["-"%char]).
Proof.
  induction n as [|n IH]; intros reader builder Hn; [lia|].
  rewrite readLoop_eq.
  destruct (ReadString reader "-") as [[line [e|]] r'] eqn:E.
  - exists []. rewrite app_nil_r. split; [reflexivity|].
    split; [apply prefix_nil|left; reflexivity].
  - pose proof (ReadString_progress _ _ _ _ E) as Hlt.
    unfold ReadString in E.
    destruct (readSlice "-" (failure reader) (unread reader) 0
                (source reader)) as [[l e] [buf src]] eqn:Es.
    inversion E; subst; clear E.
    pose proof (readSlice_line _ _ _ _ _ _ _ Es) as (pre & Hpre & _).
    apply readSlice_split in Es.
    destruct (Contains line delimiter).
    + exists line. split; [reflexivity|]. split; [|right; eauto].
      rewrite Es. apply prefix_app_r. reflexivity.
    + destruct (IH {| unread := buf; source := src;
                      failure := failure reader |} (builder ++ line))
        as (acc & -> & Hacc & Hend); [lia|].
      exists (line ++ acc). rewrite app_assoc. split; [reflexivity|].
      split; [rewrite Es; apply prefix_app; exact Hacc|].
      right. destruct Hend as [->|(pre' & ->)].
      * rewrite app_nil_r. eauto.
      * exists (line ++ pre'). rewrite app_assoc. reflexivity.
Qed.

Lemma existsb_eqb_In d (s : bytes) :
  existsb (Ascii.eqb d) s = true <-> In d s.
Proof.
  rewrite existsb_exists. split.
  - intros (x & Hx & E). apply Ascii.eqb_eq in E. subst. exact Hx.
  - intros H. exists d. split; [exact H|apply Ascii.eqb_refl].
Qed.

Lemma complete_cut_None d s : cut d s = None -> complete d s = [].
Proof.
  intros H. apply cut_None in H. destruct s as [|c s]; [reflexivity|].
  unfold complete; fold complete.
  destruct (existsb (Ascii.eqb d) (c :: s)) eqn:E; [|reflexivity].
  apply existsb_eqb_In in E. contradiction.
Qed.

Lemma complete_cut_Some d s line rest :
  cut d s = Some (line, rest) -> complete d s = line ++ complete d rest.
Proof.
  revert line rest; induction s as [|c s IH]; intros line rest H.
  - discriminate.
  - assert (Hin : existsb (Ascii.eqb d) (c :: s) = true).
    { apply existsb_eqb_In.
      apply cut_Some in H as (pre & -> & _ & ->).
      rewrite <- app_assoc. apply in_or_app. right. left. reflexivity. }
    unfold complete; fold complete. rewrite Hin.
    simpl in H. destruct (Ascii.eqb c d).
    + inversion H; subst. reflexivity.
    + destruct (cut d s) as [[l r]|]; [|discriminate].
      inversion H; subst. rewrite (IH _ _ eq_refl). reflexivity.
Qed.

Lemma complete_ends d s : complete d (s ++ [d]) = s ++ [d].
Proof.
  induction s as [|c s IH].
  - simpl. rewrite Ascii.eqb_refl. reflexivity.
  - change ((c :: s) ++ [d]) with (c :: s ++ [d]).
    unfold complete; fold complete.
    replace (existsb (Ascii.eqb d) (c :: s ++ [d])) with true.
    + rewrite IH. reflexivity.
    + symmetry. apply existsb_eqb_In. right. apply in_or_app.
      right. left. reflexivity.
Qed.

(** When every read returns data, [ReadString] depends on the stream
    only through the bytes still to come. *)
Lemma readSlice_concat delim fail src : forall buf empty,
  Forall (fun c => c <> []) src ->
  match cut delim (buf ++ concat src) with
  | Some (line, rest) =>
    exists buf' src',
      readSlice delim fail buf empty src = (line, None, (buf', src')) /\
      buf' ++ concat src' = rest /\ Forall (fun c => c <> []) src'
  | None =>
    readSlice delim fail buf empty src =
    (buf ++ concat src, Some fail, ([], []))
  end.
Proof.
  induction src as [|chunk src IH]; intros buf empty Hne; simpl.
  - rewrite app_nil_r. destruct (cut delim buf) as [[l r]|] eqn:E.
    + exists r, []. rewrite app_nil_r. auto.
    + reflexivity.
  - inversion Hne as [|? ? Hc Hsrc]; subst.
    destruct (cut delim buf) as [[l r]|] eqn:E.
    + rewrite (cut_app_Some _ _ _ _ _ E).
      exists r, (chunk :: src). auto.
    + destruct chunk as [|c chunk]; [congruence|].
      specialize (IH (buf ++ c :: chunk) 0 Hsrc).
      rewrite <- app_assoc in IH. exact IH.
Qed.

(** When every read returns data, the loop accumulates the data up to
    the last dash of the stream: the sentinel never stops it. *)
Lemma readLoop_complete : forall n reader builder,
  pending reader < n ->
  Forall (fun c => c <> []) (source reader) ->
  readLoop reader builder =
  builder ++ complete "-" (unread reader ++ concat (source reader)).
Proof.
  induction n as [|n IH]; intros reader builder Hn Hne; [lia|].
  rewrite readLoop_eq.
  pose proof (readSlice_concat "-" (failure reader) (source reader)
                (unread reader) 0 Hne) as Hs.
  destruct (cut "-" (unread reader ++ concat (source reader)))
    as [[line rest]|] eqn:Ec.
  - destruct Hs as (buf' & src' & Hs & Hrest & Hne').
    assert (E : ReadString reader "-" =
                (line, None, {| unread := buf'; source := src';
                                failure := failure reader |})).
    { unfold ReadString. rewrite Hs. reflexivity. }
    rewrite E.
    pose proof (ReadString_progress _ _ _ _ E) as Hlt.
    rewrite (complete_cut_Some _ _ _ _ Ec).
    apply cut_Some in Ec as (pre & -> & Hpre & _).
    rewrite (line_never_contains_delimiter _ Hpre).
    rewrite IH; [|lia|exact Hne'].
    simpl. rewrite Hrest, <- app_assoc. reflexivity.
  - unfold ReadString. rewrite Hs.
    rewrite (complete_cut_None _ _ Ec), app_nil_r. reflexivity.
Qed.

End ReaderFacts.

(** ** Facts about stripping the sentinel and trimming *)

Section StripFacts.

(** The sentinel's first byte does not occur again in it, so that two
    occurrences of the sentinel never overlap. *)
Variables (h : ascii) (tl : bytes).
Hypothesis h_fresh : ~ In h tl.
Let old := h :: tl.

Lemma replaceFrom_skip_all new : forall s k,
  length s <= k -> replaceFrom old new k s = [].
Proof.
  induction s as [|c s IH]; intros k Hk; [reflexivity|].
  simpl in Hk. destruct k as [|k]; [lia|].
  simpl. apply IH. lia.
Qed.

(** An occurrence of [old] that starts inside [s] and reaches into an
    appended copy of [old] lies within [s]. *)
Lemma no_straddle s :
  s <> [] -> HasPrefix (s ++ old) old = true -> HasPrefix s old = true.
Proof using h_fresh.
  destruct s as [|c s]; [congruence|]. intros _ H.
  simpl in H. apply andb_true_iff in H as [Hc H].
  apply Ascii.eqb_eq in Hc. subst c.
  apply HasPrefix_true in H as [t E].
  apply app_eq_app in E as [l [[-> _]|[E1 E2]]].
  - exact (HasPrefix_app (h :: tl) l).
  - destruct l as [|x l].
    + rewrite app_nil_r in E1. subst tl. apply HasPrefix_refl.
    + inversion E2; subst x. exfalso. apply h_fresh.
      rewrite E1. apply in_or_app. right. left. reflexivity.
Qed.

Lemma ReplaceAll_appended data :
  Contains data old = false -> ReplaceAll (data ++ old) old [] = data.
Proof using h_fresh.
  unfold ReplaceAll, old. induction data as [|c data IH]; intros Hc.
  - change ([] ++ h :: tl) with (h :: tl).
    unfold replaceFrom; fold replaceFrom.
    rewrite (HasPrefix_refl (h :: tl)).
    simpl. apply replaceFrom_skip_all. lia.
  - simpl in Hc. apply orb_false_iff in Hc as [Hp Hc].
    change ((c :: data) ++ h :: tl) with (c :: data ++ h :: tl).
    unfold replaceFrom; fold replaceFrom.
    destruct (HasPrefix (c :: data ++ h :: tl) (h :: tl)) eqn:E.
    + apply (no_straddle (c :: data)) in E; [|discriminate].
      simpl in E, Hp. congruence.
    + rewrite (IH Hc). reflexivity.
Qed.

End StripFacts.

Lemma ReplaceAll_delimiter data :
  Contains data delimiter = false ->
  ReplaceAll (data ++ delimiter) delimiter [] = data.
Proof.
  apply (ReplaceAll_appended "<"%char (B "???DONE???---")).
  simpl. intuition discriminate.
Qed.

Section TrimFacts.

Lemma trimWith_stop p2 p3 a s :
  space1 a = false ->
  (forall b, p2 a b = false) ->
  (forall b c, p3 a b c = false) ->
  trimWith p2 p3 (a :: s) = a :: s.
Proof.
  intros H1 H2 H3. simpl. rewrite H1.
  destruct s as [|b [|c s]]; rewrite ?H2, ?H3; reflexivity.
Qed.

Ltac decide_codes a :=
  repeat match goal with
  | |- context [Nat.eqb (code a) ?k] =>
    destruct (Nat.eqb_spec (code a) k); [lia|]
  | |- context [Nat.leb ?k (code a)] =>
    destruct (Nat.leb_spec k (code a)); [lia|]
  end;
  repeat match goal with
  | |- context [Nat.eqb ?x ?k] => destruct (Nat.eqb x k)
  | |- context [Nat.leb ?x ?k] => destruct (Nat.leb x k)
  end; reflexivity.

Lemma solid_ascii a : solid a = true -> code a < 128 /\ space1 a = false.
Proof.
  unfold solid. intros H. apply andb_true_iff in H as [H1 H2].
  apply Nat.ltb_lt in H1. apply negb_true_iff in H2. auto.
Qed.

Lemma TrimLeftSpace_solid a s :
  solid a = true -> TrimLeftSpace (a :: s) = a :: s.
Proof.
  intros H. apply solid_ascii in H as [Hlt Hs].
  apply trimWith_stop; [exact Hs|intros b|intros b c].
  - unfold space2. decide_codes a.
  - unfold space3. decide_codes a.
Qed.

Lemma TrimRightSpace_solid s z :
  solid z = true -> TrimRightSpace (s ++ [z]) = s ++ [z].
Proof.
  intros H. apply solid_ascii in H as [Hlt Hs].
  unfold TrimRightSpace. rewrite rev_unit, trimWith_stop.
  - simpl. rewrite rev_involutive. reflexivity.
  - exact Hs.
  - intros b. unfold space2. decide_codes z.
  - intros b c. unfold space3. decide_codes z.
Qed.

(** A text that begins and ends with a solid byte is left as it is. *)
Lemma TrimSpace_solid a s z :
  solid a = true -> solid z = true ->
  TrimSpace (a :: s ++ [z]) = a :: s ++ [z].
Proof.
  intros Ha Hz. unfold TrimSpace.
  rewrite (TrimLeftSpace_solid _ _ Ha).
  exact (TrimRightSpace_solid (a :: s) z Hz).
Qed.

Lemma TrimSpace_object data : object_text data -> TrimSpace data = data.
Proof. intros [members ->]. apply TrimSpace_solid; reflexivity. Qed.

End TrimFacts.

(** ** The decoder *)



(** C2 (the code departs from the claim).  No line that [ReadString('-')]
    returns contains the sentinel, so the test that should stop the loop
    never holds and the loop reads on until the stream fails: with the
    sentinel followed by further data, [readResponse] returns that data
    too. *)
Theorem readResponse_reads_past_sentinel :
  (forall reader,
     match ReadString reader "-" with
     | (line, None, _) => Contains line delimiter = false
     | (_, Some _, _) => True
     end) /\
  readResponse {| chunks := [B "ok<???DONE???---"; B " more-"];
                  closing := ErrDeadline |} = (B "ok more-", None).
Proof.
  split.
  - intros reader. unfold ReadString.
    destruct (readSlice "-" (failure reader) (unread reader) 0
                (source reader)) as [[l [e|]] [buf src]] eqn:E; [exact I|].
    apply readSlice_line in E as (pre & -> & Hn).
    apply line_never_contains_delimiter, Hn.
  - vm_compute. reflexivity.
Qed.

(** C4.  Delivering the same bytes in other chunks -- each read returning
    at least one byte, down to one byte per read -- does not change what
    [readResponse] returns. *)
Theorem readResponse_chunking (cs : list bytes) (fin : error) :
  Forall (fun c => c <> []) cs ->
  readResponse {| chunks := cs; closing := fin |} =
  readResponse {| chunks := [concat cs]; closing := fin |} /\
  readResponse {| chunks := map (fun b => [b]) (concat cs); closing := fin |} =
  readResponse {| chunks := [concat cs]; closing := fin |}.
Proof.
  intros Hne.
  assert (Hall : forall ds, Forall (fun c => c <> []) ds ->
            readLoop (NewReader {| chunks := ds; closing := fin |}) [] =
            complete "-" (concat ds)).
  { intros ds Hds.
    rewrite (readLoop_complete (S (pending (NewReader
               {| chunks := ds; closing := fin |})))); [|lia|exact Hds].
    reflexivity. }
  assert (Hone : readLoop (NewReader {| chunks := [concat cs];
                                         closing := fin |}) [] =
                 complete "-" (concat cs)).
  { destruct (concat cs) as [|c s] eqn:E.
    - rewrite readLoop_eq. reflexivity.
    - rewrite Hall; [simpl; rewrite app_nil_r; reflexivity|].
      constructor; [discriminate|constructor]. }
  assert (Hbytes : forall s : bytes, concat (map (fun b => [b]) s) = s).
  { induction s as [|b s IH]; simpl; congruence. }
  unfold readResponse. rewrite Hone, !Hall.
  - rewrite Hbytes. split; reflexivity.
  - generalize (concat cs). intros s.
    induction s as [|b s IH]; simpl;
      [constructor|constructor; [discriminate|exact IH]].
  - exact Hne.
Qed.

Lemma readResponse_chunking_witness :
  Forall (fun c => c <> []) [B "{}<???DO"; B "NE???---"] /\
  (readResponse {| chunks := [B "{}<???DO"; B "NE???---"]; closing := EOF |} =
   readResponse {| chunks := [concat [B "{}<???DO"; B "NE???---"]];
                   closing := EOF |} /\
   readResponse {| chunks := map (fun b => [b])
                               (concat [B "{}<???DO"; B "NE???---"]);
                   closing := EOF |} =
   readResponse {| chunks := [concat [B "{}<???DO"; B "NE???---"]];
                   closing := EOF |}).
Proof.
  split.
  - repeat constructor; discriminate.
  - apply (readResponse_chunking [B "{}<???DO"; B "NE???---"] EOF).
    repeat constructor; discriminate.
Defined.

(** ** Running programs *)

Lemma run_bind env {A B : Type} (p : prog A) (f : A -> prog B) w :
  run env (bind p f) w =
  match run env p w with
  | Some (a, w') => run env (f a) w'
  | None => None
  end.
Proof.
  revert w; induction p as [a|X e k IH]; intros w; simpl.
  - reflexivity.
  - destruct (handle env e w) as [[x w']|]; [apply IH|reflexivity].
Qed.

Lemma run_sendJSONMessage env conn msg w :
  run env (sendJSONMessage conn msg) w =
  match json_Marshal env msg with
  | inl data =>
    let w1 := record (Marshal msg) (inl data) w in
    Some (written env (clock w1),
          record (Write conn (data ++ delimiter)) (written env (clock w1)) w1)
  | inr err => Some (Some err, record (Marshal msg) (inr err) w)
  end.
Proof.
  unfold sendJSONMessage. simpl. unfold handle. simpl.
  destruct (json_Marshal env msg); reflexivity.
Qed.

Lemma sent_app tr1 tr2 : sent (tr1 ++ tr2) = sent tr1 ++ sent tr2.
Proof. unfold sent. apply flat_map_app. Qed.

(** C3.  When the JSON encoding [data] of a command does not contain the
    sentinel, [sendJSONMessage] writes [data] immediately followed by the
    sentinel, and [readResponse], fed these bytes in any chunks, returns
    [data] trimmed -- [data] itself when it is the text of a JSON object,
    as the encoding of a command map is. *)
Theorem framing_round_trip (env : Env) (conn : Conn) (msg : Message)
    (data : bytes) (w : World) :
  json_Marshal env msg = inl data ->
  Contains data delimiter = false ->
  exists err w',
    run env (sendJSONMessage conn msg) w = Some (err, w') /\
    sent (trace w') = sent (trace w) ++ [data ++ delimiter] /\
    (forall cs fin,
       Forall (fun c => c <> []) cs -> concat cs = data ++ delimiter ->
       readResponse {| chunks := cs; closing := fin |} =
       (TrimSpace data, None)) /\
    (object_text data -> TrimSpace data = data).
Proof.
  intros Hm Hc. rewrite run_sendJSONMessage, Hm. simpl.
  eexists _, _. split; [reflexivity|]. simpl. split; [|split].
  - rewrite <- app_assoc, sent_app. reflexivity.
  - intros cs fin Hne Hcs. unfold readResponse.
    rewrite (readLoop_complete (S (pending (NewReader
               {| chunks := cs; closing := fin |})))); [|lia|exact Hne].
    simpl. rewrite Hcs.
    change delimiter with (B "<???DONE???--" ++ ["-"%char]) at 1.
    rewrite app_assoc, complete_ends, <- app_assoc.
    change (B "<???DONE???--" ++ ["-"%char]) with delimiter.
    rewrite (ReplaceAll_delimiter _ Hc). reflexivity.
  - apply TrimSpace_object.
Qed.

Lemma framing_round_trip_witness :
  json_Marshal sampleEnv [] = inl (B "{}") /\
  Contains (B "{}") delimiter = false /\
  exists err w',
    run sampleEnv (sendJSONMessage 0 []) sampleWorld = Some (err, w') /\
    sent (trace w') = sent (trace sampleWorld) ++ [B "{}" ++ delimiter] /\
    (forall cs fin,
       Forall (fun c => c <> []) cs -> concat cs = B "{}" ++ delimiter ->
       readResponse {| chunks := cs; closing := fin |} =
       (TrimSpace (B "{}"), None)) /\
    (object_text (B "{}") -> TrimSpace (B "{}") = B "{}").
Proof.
  split; [reflexivity|]. split; [reflexivity|].
  apply (framing_round_trip sampleEnv 0 [] (B "{}") sampleWorld); reflexivity.
Defined.

(** ** Spawning *)

#[local] Opaque authMessage.
Arguments readLoop : simpl never.

Ltac run_step := cbn; unfold handle; cbn.

Ltac run_done Hwg :=
  run_step; rewrite Hwg; eexists _, _; split; [reflexivity|]; cbn;
  rewrite <- ?app_assoc; split; [reflexivity|]; cbn; auto.

(** C7.  A [spawnCube] call returns; it appends the entity's name with
    the suffix [_BASE] to the entity registry, between taking and
    releasing the registry's lock, exactly when the spawn round-trip
    succeeds (dial, write of the password, read of the answer, encoding
    and write of the spawn command); on any failure the registry is
    unchanged.  The link registry is never touched. *)
Theorem spawnCube_registers (env : Env) (cube : Cube) (wg : WaitGroup)
    (w : World) (n : nat) :
  held w cubeListMutex = false ->
  waitGroups w !! wg = Some (S n) ->
  exists w' new,
    run env (spawnCube cube wg) w = Some (tt, w') /\
    trace w' = trace w ++ new /\
    globalCubeLinks w' = globalCubeLinks w /\
    held w' cubeListMutex = false /\
    if spawnSucceeds env (clock w) cube
    then globalCubeList w' =
         globalCubeList w ++ [(Name cube ++ "_BASE")%string] /\
         exists pre post,
           new = pre ++ [Obs (Lock cubeListMutex) tt;
                         Obs (AppendCube (Name cube ++ "_BASE")) tt;
                         Obs (Unlock cubeListMutex) tt] ++ post
    else globalCubeList w' = globalCubeList w /\ appendedCubes new = [].
Proof.
  intros Hm Hwg. unfold spawnCube, spawnSucceeds. run_step.
  destruct (dialed env (clock w)) eqn:Hd; [run_done Hwg|].
  run_step.
  destruct (written env (S (clock w))) eqn:Hw1; [run_done Hwg|].
  run_step.
  destruct (json_Marshal env (spawnCommand cube)) eqn:Hj; [|run_done Hwg].
  run_step.
  destruct (written env (S (S (S (S (clock w)))))) eqn:Hw2; [run_done Hwg|].
  run_step. rewrite Hm. run_step. rewrite Hwg.
  eexists _, _. split; [reflexivity|]. cbn.
  rewrite <- !app_assoc. split; [reflexivity|]. cbn.
  repeat split; auto.
  eexists [_; _; _; _; _], _. reflexivity.
Qed.

Lemma spawnCube_registers_witness :
  held sampleWorld cubeListMutex = false /\
  waitGroups sampleWorld !! 0 = Some 1 /\
  exists w' new,
    run sampleEnv (spawnCube {| Name := "tail1"; Position := [] |} 0)
      sampleWorld = Some (tt, w') /\
    trace w' = trace sampleWorld ++ new /\
    globalCubeLinks w' = globalCubeLinks sampleWorld /\
    held w' cubeListMutex = false /\
    if spawnSucceeds sampleEnv (clock sampleWorld)
         {| Name := "tail1"; Position := [] |}
    then globalCubeList w' =
         globalCubeList sampleWorld ++ ["tail1_BASE"] /\
         exists pre post,
           new = pre ++ [Obs (Lock cubeListMutex) tt;
                         Obs (AppendCube "tail1_BASE") tt;
                         Obs (Unlock cubeListMutex) tt] ++ post
    else globalCubeList w' = globalCubeList sampleWorld /\
         appendedCubes new = [].
Proof.
  split; [reflexivity|]. split; [reflexivity|].
  apply (spawnCube_registers sampleEnv {| Name := "tail1"; Position := [] |}
           0 sampleWorld 0); reflexivity.
Defined.

(** ** Linking chains *)








Lemma run_mbind env {A B : Type} (p : prog A) (f : A -> prog B) w :
  run env (p ≫= f) w =
  match run env p w with
  | Some (a, w') => run env (f a) w'
  | None => None
  end.
Proof. apply run_bind. Qed.






Example linkCubeChains_hinge_ABC :
  option_map (fun r => (fst r, globalCubeLinks (snd r)))
    (run sampleEnv (linkCubeChains [["A"; "B"; "C"]] "hinge" stiffParams)
       sampleWorld) =
  Some (None, [{| JointName := "joint_hinge_A_B"; CubeA := "A"; CubeB := "B" |};
               {| JointName := "joint_hinge_B_C"; CubeA := "B"; CubeB := "C" |}]).
Proof. vm_compute. reflexivity. Qed.

(** ** Looking a joint up *)





Example findClosestJoint_j1 :
  option_map fst
    (run sampleEnv (findClosestJoint "A")
       (set_links sampleWorld
          [{| JointName := "j1"; CubeA := "A"; CubeB := "B" |};
           {| JointName := "j2"; CubeA := "A"; CubeB := "C" |}])) =
  Some "j1".
Proof. vm_compute. reflexivity. Qed.

(** ** Goroutine pools *)

Section PoolFacts.

Variable env : Env.

Lemma respond_quiet X (e : event X) w x w' :
  quiet X e -> respond env e w = Some (x, w') -> waitGroups w' = waitGroups w.
Proof.
  destruct e; simpl; try contradiction; intros _ H;
    repeat match type of H with
           | context [match ?c with _ => _ end] => destruct c
           end;
    inversion H; reflexivity.
Qed.

Lemma handle_quiet X (e : event X) w x w' :
  quiet X e -> handle env e w = Some (x, w') -> waitGroups w' = waitGroups w.
Proof.
  unfold handle. destruct (respond env e w) as [[y w1]|] eqn:E; [|discriminate].
  intros Hq H; inversion H; subst. simpl. eapply respond_quiet; eauto.
Qed.

Lemma free_quiet X (e : event X) : free X e -> quiet X e.
Proof. destruct e; simpl; auto. Qed.

Lemma started_quiet X (e : event X) : quiet X e -> started e = [].
Proof. destruct e; simpl; intros H; try reflexivity; contradiction. Qed.

Lemma free_enabled X (e : event X) w :
  free X e -> exists x w', handle env e w = Some (x, w').
Proof.
  destruct e; simpl; try contradiction; intros _; unfold handle; simpl;
    try destruct (dialed env (clock w)); eauto.
Qed.

Lemma worker_live P wg u : worker P wg u -> returned u = false.
Proof. destruct 1; reflexivity. Qed.

Lemma live_app units u :
  live (units ++ [u]) = live units + (if returned u then 0 else 1).
Proof. induction units as [|v units IH]; simpl; lia. Qed.

Lemma live_insert : forall units i u u',
  units !! i = Some u ->
  live (<[i := u']> units) + (if returned u then 0 else 1) =
  live units + (if returned u' then 0 else 1).
Proof.
  induction units as [|v units IH]; intros [|i] u u' H; try discriminate;
    simpl in *.
  - inversion H; subst. lia.
  - specialize (IH _ _ u' H). lia.
Qed.

Lemma live_zero units :
  live units = 0 -> Forall (fun t => returned t = true) units.
Proof.
  induction units as [|u units IH]; simpl; intros H; constructor.
  - destruct (returned u); [reflexivity|discriminate].
  - apply IH. lia.
Qed.

Lemma live_pos : forall units i u,
  units !! i = Some u -> returned u = false -> 0 < live units.
Proof.
  induction units as [|v units IH]; intros [|i] u H Hu; try discriminate;
    simpl in *.
  - inversion H; subst. rewrite Hu. lia.
  - specialize (IH _ _ H Hu). lia.
Qed.

Lemma live_exists units :
  0 < live units -> exists i u, units !! i = Some u /\ returned u = false.
Proof.
  induction units as [|v units IH]; simpl; intros H; [lia|].
  destruct (returned v) eqn:Hv.
  - destruct IH as (i & u & Hi & Hu); [lia|]. exists (S i), u. auto.
  - exists 0, v. auto.
Qed.

(** A step of a goroutine of the batch. *)
Lemma step_unit P wg total ph s i :
  (forall X (e : event X), P X e -> quiet X e) ->
  batch_inv P wg total ph s ->
  batch_inv P wg total ph (step env s (S i)).
Proof.
  intros HP [main units Hth Hmain Hgs Hunits Hcount Hlen Hjoined].
  unfold step. rewrite Hth. simpl.
  destruct (units !! i) as [u|] eqn:Hu; [|econstructor; eauto].
  assert (Hw : u = Ret tt \/ worker P wg u).
  { eapply Forall_lookup_1 in Hunits; eauto. }
  destruct Hw as [->|Hw]; [econstructor; eauto|].
  assert (Hpos := live_pos _ _ _ Hu (worker_live _ _ _ Hw)).
  assert (Hnj : ph <> Joined) by (intros E; specialize (Hjoined E); lia).
  destruct Hw as [k Hk|X e k He Hk].
  - (* wg.Done() *)
    unfold handle. simpl. rewrite Hcount.
    destruct (live units + added ph) as [|n] eqn:En; [lia|].
    simpl. rewrite app_nil_r, Hk.
    pose proof (live_insert _ _ _ (Ret tt) Hu) as Hl. simpl in Hl.
    econstructor; simpl; eauto.
    + apply Forall_insert; auto.
    + rewrite list_lookup_insert_eq by (eapply lookup_lt_Some; eauto).
      f_equal. lia.
    + rewrite length_insert. exact Hlen.
    + intros E. contradiction.
  - destruct (handle env e (world s)) as [[x w']|] eqn:Eh;
      [|econstructor; eauto].
    simpl. rewrite (started_quiet _ _ (HP _ _ He)), app_nil_r.
    pose proof (live_insert _ _ _ (k x) Hu) as Hl. simpl in Hl.
    rewrite (worker_live _ _ _ (Hk x)) in Hl.
    econstructor; simpl; eauto.
    + apply Forall_insert; auto.
    + rewrite (handle_quiet _ _ _ _ _ (HP _ _ He) Eh), Hcount. f_equal. lia.
    + rewrite length_insert. exact Hlen.
    + intros E. contradiction.
Qed.

(** A step of the caller. *)
Lemma step_main P wg total ph s :
  (forall X (e : event X), P X e -> quiet X e) ->
  batch_inv P wg total ph s ->
  batch_inv P wg total (advance ph (live (tail (threads s)))) (step env s 0).
Proof.
  intros HP [main units Hth Hmain Hgs Hunits Hcount Hlen Hjoined].
  unfold step. rewrite Hth. simpl.
  destruct ph as [gs|g gs|]; simpl in *.
  - destruct Hmain as [k Hk|g gs k Hk]; unfold handle; simpl; rewrite Hcount.
    + rewrite Nat.add_0_r. destruct (live units) as [|n] eqn:El; simpl.
      * rewrite app_nil_r. econstructor; simpl; eauto.
        rewrite El. exact Hcount.
      * econstructor; simpl; eauto;
          [constructor; exact Hk|rewrite El; exact Hcount|discriminate].
    + simpl. rewrite app_nil_r. econstructor; simpl; eauto; try discriminate.
      rewrite list_lookup_insert_eq by (eapply lookup_lt_Some; eauto).
      f_equal. lia.
  - destruct Hmain as [g gs k Hk]. unfold handle; simpl.
    inversion Hgs as [|? ? Hg Hgs']; subst.
    econstructor; simpl; eauto; try discriminate.
    + apply Forall_app. split; [exact Hunits|]. constructor; auto.
    + rewrite Hcount, live_app, (worker_live _ _ _ Hg). f_equal. lia.
    + rewrite length_app. simpl in *. lia.
  - destruct Hmain as [a|X e k He Hk];
      [econstructor; eauto; simpl; constructor|].
    destruct (handle env e (world s)) as [[x w']|] eqn:Eh;
      [|econstructor; eauto; simpl; constructor; auto].
    simpl. rewrite (started_quiet _ _ (free_quiet _ _ He)), app_nil_r.
    econstructor; simpl; eauto.
    rewrite (handle_quiet _ _ _ _ _ (free_quiet _ _ He) Eh). exact Hcount.
Qed.

Lemma exec_batch P wg total sched : forall ph s,
  (forall X (e : event X), P X e -> quiet X e) ->
  batch_inv P wg total ph s ->
  exists ph', batch_inv P wg total ph' (exec env sched s).
Proof.
  induction sched as [|tid sched IH]; intros ph s HP Hinv; [eauto|].
  simpl. destruct tid as [|i].
  - eapply IH; [exact HP|]. apply step_main; eauto.
  - eapply IH; [exact HP|]. apply step_unit; eauto.
Qed.

(** When the caller has returned, all the goroutines of the batch have
    been started and have returned. *)
Lemma batch_returned P wg total ph s :
  batch_inv P wg total ph s ->
  threads s !! 0 = Some (Ret tt) ->
  length (threads s) = S total /\
  Forall (fun t => returned t = true) (threads s).
Proof.
  intros [main units Hth Hmain Hgs Hunits Hcount Hlen Hjoined] H0.
  rewrite Hth in *. simpl in H0. inversion H0; subst main.
  destruct ph as [gs|g gs|]; simpl in Hmain; [inversion Hmain..|].
  simpl in *. split; [lia|].
  constructor; [reflexivity|]. apply live_zero. auto.
Qed.

(** While the caller is alone, only its own steps change the pool. *)
Lemma exec_alone X (e : event X) k w x w' sched :
  handle env e w = Some (x, w') -> started e = [] ->
  exec env sched {| world := w; threads := [Vis e k] |} =
  {| world := w; threads := [Vis e k] |} \/
  exists sched',
    exec env sched {| world := w; threads := [Vis e k] |} =
    exec env sched' {| world := w'; threads := [k x] |}.
Proof.
  intros He Hs. induction sched as [|tid sched IH]; [left; reflexivity|].
  unfold exec in *. cbn [fold_left]. destruct tid as [|i].
  - right. exists sched. f_equal. unfold step. simpl. rewrite He, Hs.
    reflexivity.
  - exact IH.
Qed.

End PoolFacts.

Lemma all_events_bind {A B : Type} P (p : prog A) (f : A -> prog B) :
  all_events P p -> (forall a, all_events P (f a)) -> all_events P (bind p f).
Proof.
  intros Hp Hf. induction Hp as [a|X e k He Hk IH]; simpl; [apply Hf|].
  constructor; auto.
Qed.

Lemma all_events_forRange {A : Type} P (body : A -> prog unit) xs :
  (forall x, all_events P (body x)) -> all_events P (forRange xs body).
Proof.
  intros Hb. induction xs as [|x xs IH]; simpl; [constructor|].
  apply all_events_bind; auto.
Qed.

Lemma worker_bind_done {A : Type} P wg (p : prog A) :
  all_events P p -> worker P wg (bind p (fun _ => trigger (Done wg))).
Proof.
  intros Hp. induction Hp as [a|X e k He Hk IH]; simpl.
  - apply worker_done. intros []. reflexivity.
  - apply worker_vis; auto.
Qed.

Lemma fanning_forRange {A : Type} wg (mk : A -> goroutine) W : forall xs,
  fanning wg [] W ->
  fanning wg (map mk xs)
    (bind (forRange xs (fun x => trigger (Add wg 1);; trigger (Go (mk x))))
          (fun _ => W)).
Proof.
  intros xs HW. induction xs as [|x xs IH]; simpl; [exact HW|].
  constructor. intros _. simpl. constructor. intros _. simpl. exact IH.
Qed.

(** A program given by its text raises only events that satisfy a
    predicate which [tac] proves of each of them. *)
Ltac events_by tac :=
  repeat first
    [ progress cbv beta zeta
    | progress unfold sendJSONMessage, readResponseOf, setJointParam,
        setJointParams
    | apply all_ret
    | match goal with
      | |- all_events _ (match ?x with _ => _ end) => destruct x
      | |- all_events _ (forRange _ _) => apply all_events_forRange; intros ?
      | |- all_events _ (bind _ _) => apply all_events_bind; [|intros ?]
      | |- all_events _ (_ ≫= _) => apply all_events_bind; [|intros ?]
      end
    | apply all_vis; [tac|intros ?] ].

Ltac events := events_by ltac:(exact I).

Lemma unfreezeCube_worker name wg : worker free wg (unfreezeCube name wg).
Proof. apply (worker_bind_done free wg). events. Qed.

Lemma despawnCube_worker name wg : worker free wg (despawnCube name wg).
Proof. apply (worker_bind_done free wg). events. Qed.

Lemma stiffenJoint_worker joint params wg :
  worker free wg (stiffenJoint joint params wg).
Proof. apply (worker_bind_done free wg). events. Qed.

Lemma stiffenJointBULK_worker joint params wg :
  worker free wg (stiffenJointBULK joint params wg).
Proof. apply (worker_bind_done free wg). events. Qed.

Lemma colorCube_worker name wg : worker free wg (colorCube name wg).
Proof. apply (worker_bind_done free wg). events. Qed.

Lemma spawnCube_worker cube wg : worker quiet wg (spawnCube cube wg).
Proof. apply (worker_bind_done quiet wg). events. Qed.


(** ** Completion of a batch *)

Section Completion.

Variable env : Env.

Lemma exec_app sched1 sched2 s :
  exec env (sched1 ++ sched2) s = exec env sched2 (exec env sched1 s).
Proof. unfold exec. apply fold_left_app. Qed.

(** A step of one thread leaves the other threads as they are. *)
Lemma step_frame s tid i :
  i <> tid -> i < length (threads s) ->
  threads (step env s tid) !! i = threads s !! i.
Proof.
  intros Hne Hlt. unfold step.
  destruct (threads s !! tid) as [[a|X e k]|] eqn:Ht; try reflexivity.
  destruct (handle env e (world s)) as [[x w']|]; [|reflexivity].
  simpl. rewrite lookup_app_l by (rewrite length_insert; exact Hlt).
  apply list_lookup_insert_ne. auto.
Qed.

(** A goroutine of the batch, scheduled alone, returns: no event of it
    can block or fail to happen, and the counter is positive when it
    reaches [wg.Done()]. *)
Lemma unit_finish wg total u :
  worker free wg u ->
  forall ph s i,
    batch_inv free wg total ph s ->
    threads s !! S i = Some u ->
    exists n,
      batch_inv free wg total ph (exec env (repeat (S i) n) s) /\
      threads (exec env (repeat (S i) n) s) !! 0 = threads s !! 0 /\
      live (tail (threads (exec env (repeat (S i) n) s))) <
      live (tail (threads s)).
Proof.
  induction 1 as [k Hk|X e k He Hk IH]; intros ph s i Hinv Hu.
  - exists 1. simpl.
    assert (Hinv' := step_unit env free wg total ph s i free_quiet Hinv).
    split; [exact Hinv'|].
    destruct Hinv as [main units Hth Hmain Hgs Hunits Hcount Hlen Hjoined].
    rewrite Hth in Hu. simpl in Hu.
    assert (Hpos := live_pos _ _ _ Hu eq_refl).
    unfold step. rewrite Hth. simpl. rewrite Hu.
    unfold handle. simpl. rewrite Hcount.
    destruct (live units + added ph) as [|n] eqn:En; [lia|].
    simpl. rewrite app_nil_r, Hk. split; [reflexivity|].
    pose proof (live_insert _ _ _ (Ret tt) Hu) as Hl. simpl in Hl. lia.
  - destruct (free_enabled env X e (world s) He) as (x & w' & Eh).
    assert (Hinv' := step_unit env free wg total ph s i free_quiet Hinv).
    assert (Hstep : threads (step env s (S i)) !! S i = Some (k x) /\
                    threads (step env s (S i)) !! 0 = threads s !! 0 /\
                    live (tail (threads (step env s (S i)))) =
                    live (tail (threads s))).
    { destruct Hinv as [main units Hth Hmain Hgs Hunits Hcount Hlen Hjoined].
      rewrite Hth in Hu. simpl in Hu.
      unfold step. rewrite Hth. simpl. rewrite Hu, Eh. simpl.
      rewrite (started_quiet _ _ (free_quiet _ _ He)), app_nil_r.
      split; [|split; [reflexivity|]].
      - apply list_lookup_insert_eq. eapply lookup_lt_Some; eauto.
      - pose proof (live_insert _ _ _ (k x) Hu) as Hl. simpl in Hl.
        rewrite (worker_live _ _ _ (Hk x)) in Hl. lia. }
    destruct Hstep as (Hk' & H0 & Hl).
    destruct (IH x ph _ i Hinv' Hk') as (n & Hn & Hn0 & Hnl).
    exists (S n). simpl. split; [exact Hn|]. split; [congruence|lia].
Qed.

(** All the goroutines started so far can be brought to return. *)
Lemma units_finish wg total : forall m ph s,
  batch_inv free wg total ph s ->
  live (tail (threads s)) <= m ->
  exists sched,
    batch_inv free wg total ph (exec env sched s) /\
    threads (exec env sched s) !! 0 = threads s !! 0 /\
    live (tail (threads (exec env sched s))) = 0.
Proof.
  induction m as [|m IH]; intros ph s Hinv Hm.
  - exists []. simpl. repeat split; auto. lia.
  - destruct (live (tail (threads s))) as [|l] eqn:El.
    + exists []. simpl. auto.
    + assert (Hex : exists i u, threads s !! S i = Some u /\ worker free wg u).
      { destruct Hinv as [main units Hth Hmain Hgs Hunits Hcount Hlen Hj].
        rewrite Hth in *. simpl in El.
        destruct (live_exists units) as (i & u & Hi & Hu); [lia|].
        exists i, u. split; [exact Hi|].
        eapply Forall_lookup_1 in Hunits; [|exact Hi].
        destruct Hunits as [->|Hw]; [discriminate|exact Hw]. }
      destruct Hex as (i & u & Hi & Hw).
      destruct (unit_finish wg total u Hw ph s i Hinv Hi)
        as (n & Hn & Hn0 & Hnl).
      destruct (IH ph _ Hn) as (sched & Hs & Hs0 & Hsl); [lia|].
      exists (repeat (S i) n ++ sched). rewrite exec_app.
      split; [exact Hs|]. split; [congruence|exact Hsl].
Qed.

(** A caller that has only free events left returns when scheduled. *)
Lemma tail_finish main :
  all_events free main ->
  forall s units, threads s = main :: units ->
  exists n, threads (exec env (repeat 0 n) s) !! 0 = Some (Ret tt).
Proof.
  induction 1 as [[]|X e k He Hk IH]; intros s units Hth.
  - exists 0. simpl. rewrite Hth. reflexivity.
  - destruct (free_enabled env X e (world s) He) as (x & w' & Eh).
    destruct (IH x {| world := w'; threads := k x :: units |} units eq_refl)
      as (n & Hn).
    exists (S n). simpl.
    replace (step env s 0) with {| world := w'; threads := k x :: units |};
      [exact Hn|].
    unfold step. rewrite Hth. simpl. rewrite Eh. simpl.
    rewrite (started_quiet _ _ (free_quiet _ _ He)), app_nil_r. reflexivity.
Qed.

Lemma joined_finish wg total s :
  batch_inv free wg total Joined s ->
  exists sched, threads (exec env sched s) !! 0 = Some (Ret tt).
Proof.
  intros [main units Hth Hmain _ _ _ _ _]. simpl in Hmain.
  destruct (tail_finish main Hmain s units Hth) as (n & Hn). eauto.
Qed.

Lemma fanning_finish wg total : forall gs s,
  batch_inv free wg total (Fanning gs) s ->
  exists sched, threads (exec env sched s) !! 0 = Some (Ret tt).
Proof.
  induction gs as [|g gs IH]; intros s Hinv.
  - destruct (units_finish wg total _ _ s Hinv (Nat.le_refl _))
      as (sched & Hs & _ & Hl).
    pose proof (step_main env free wg total _ _ free_quiet Hs) as Hj.
    rewrite Hl in Hj. simpl in Hj.
    destruct (joined_finish wg total _ Hj) as (sched' & H').
    exists (sched ++ 0 :: sched'). rewrite exec_app. exact H'.
  - pose proof (step_main env free wg total _ _ free_quiet Hinv) as H1.
    simpl in H1.
    pose proof (step_main env free wg total _ _ free_quiet H1) as H2.
    simpl in H2.
    destruct (IH _ H2) as (sched & Hs).
    exists (0 :: 0 :: sched). exact Hs.
Qed.

(** Whatever has happened so far, the batch can still run to the
    caller's return. *)
Lemma batch_finish wg total ph s :
  batch_inv free wg total ph s ->
  exists sched, threads (exec env sched s) !! 0 = Some (Ret tt).
Proof.
  intros Hinv. destruct ph as [gs|g gs|].
  - eapply fanning_finish; eauto.
  - pose proof (step_main env free wg total _ _ free_quiet Hinv) as H1.
    simpl in H1.
    destruct (fanning_finish wg total _ _ H1) as (sched & Hs).
    exists (0 :: sched). exact Hs.
  - eapply joined_finish; eauto.
Qed.

Lemma barrier_batch wg total ph s sched :
  batch_inv free wg total ph s -> barrier env total (exec env sched s).
Proof.
  intros Hinv.
  destruct (exec_batch env free wg total sched ph s free_quiet Hinv)
    as (ph' & Hinv').
  split.
  - eapply batch_returned; eauto.
  - eapply batch_finish; eauto.
Qed.

Lemma barrier_alone total X (e : event X) k w x w' :
  handle env e w = Some (x, w') -> started e = [] ->
  (forall sched,
     barrier env total (exec env sched {| world := w'; threads := [k x] |})) ->
  forall sched,
    barrier env total (exec env sched {| world := w; threads := [Vis e k] |}).
Proof.
  intros He Hs Hnext sched.
  destruct (exec_alone env X e k w x w' sched He Hs) as [->|(sched' & ->)];
    [|apply Hnext].
  split; [discriminate|].
  destruct (Hnext []) as [_ (sched' & H')].
  exists (0 :: sched'). simpl.
  replace (step env {| world := w; threads := [Vis e k] |} 0)
    with {| world := w'; threads := [k x] |}; [exact H'|].
  unfold step. simpl. rewrite He, Hs. reflexivity.
Qed.

End Completion.

(** ** The batches of the client *)

Lemma Forall_map_intro {A B : Type} (Q : B -> Prop) (f : A -> B) xs :
  (forall x, Q (f x)) -> Forall Q (map f xs).
Proof. intros H. induction xs; simpl; constructor; auto. Qed.

(** The pool at the moment the caller enters its loop. *)
Lemma batch_entry {A : Type} wg (mk : A -> goroutine) xs W w :
  fanning wg [] W ->
  (forall x, worker free wg (body (mk x))) ->
  waitGroups w !! wg = Some 0 ->
  batch_inv free wg (length xs) (Fanning (map mk xs))
    {| world := w;
       threads :=
         [bind (forRange xs (fun x => trigger (Add wg 1);; trigger (Go (mk x))))
               (fun _ => W)] |}.
Proof.
  intros HW Hmk Hwg. econstructor; simpl.
  - reflexivity.
  - apply fanning_forRange. exact HW.
  - apply Forall_map_intro. exact Hmk.
  - constructor.
  - exact Hwg.
  - rewrite length_map. reflexivity.
  - discriminate.
Qed.

Lemma new_group_zero (groups : list nat) :
  (groups ++ [0]) !! length groups = Some 0.
Proof. apply list_lookup_middle. reflexivity. Qed.

Lemma unfreezeAllCubes_barrier env w sched :
  barrier env (length (globalCubeList w))
    (exec env sched {| world := w; threads := [unfreezeAllCubes] |}).
Proof.
  revert sched.
  eapply barrier_alone; [reflexivity..|].
  eapply barrier_alone; [reflexivity..|].
  intros sched. eapply barrier_batch.
  apply (batch_entry (length (waitGroups w))
           (fun cube => go_unfreeze cube (length (waitGroups w)))
           (globalCubeList w) (trigger (Wait (length (waitGroups w))))).
  - constructor. intros x. constructor.
  - intros x. apply unfreezeCube_worker.
  - apply new_group_zero.
Qed.

Lemma despawnAllCubes_barrier env w sched :
  barrier env (length (globalCubeList w))
    (exec env sched {| world := w; threads := [despawnAllCubes] |}).
Proof.
  revert sched.
  eapply barrier_alone; [reflexivity..|].
  eapply barrier_alone; [reflexivity..|].
  intros sched. eapply barrier_batch.
  apply (batch_entry (length (waitGroups w))
           (fun cube => go_despawn cube (length (waitGroups w)))
           (globalCubeList w) (trigger (Wait (length (waitGroups w))))).
  - constructor. intros x. constructor.
  - intros x. apply despawnCube_worker.
  - apply new_group_zero.
Qed.

Lemma stiffenAllJoints_barrier env w sched :
  barrier env (length (globalCubeLinks w))
    (exec env sched {| world := w; threads := [stiffenAllJoints] |}).
Proof.
  revert sched.
  eapply barrier_alone; [reflexivity..|].
  eapply barrier_alone; [reflexivity..|].
  intros sched. eapply barrier_batch.
  apply (batch_entry (length (waitGroups w))
           (fun link => go_stiffen link stiffParams (length (waitGroups w)))
           (globalCubeLinks w)
           (trigger (Wait (length (waitGroups w)));;
            trigger (Println
              [Str "[stiffenAllJoints] All joints have been stiffened."]))).
  - constructor. intros x. events.
  - intros x. apply stiffenJoint_worker.
  - apply new_group_zero.
Qed.

Lemma stiffenAllJointsBULK_barrier env w sched :
  barrier env (length (globalCubeLinks w))
    (exec env sched {| world := w; threads := [stiffenAllJointsBULK] |}).
Proof.
  revert sched.
  eapply barrier_alone; [reflexivity..|].
  eapply barrier_alone; [reflexivity..|].
  intros sched. eapply barrier_batch.
  apply (batch_entry (length (waitGroups w))
           (fun link => go_stiffenBULK link stiffParams (length (waitGroups w)))
           (globalCubeLinks w)
           (trigger (Wait (length (waitGroups w)));;
            trigger (Println [Str "[stiffenAllJoints] All joints updated."]))).
  - constructor. intros x. events.
  - intros x. apply stiffenJointBULK_worker.
  - apply new_group_zero.
Qed.

Lemma setMouthColorYellow_barrier env w sched :
  barrier env (length mouthCubes)
    (exec env sched {| world := w; threads := [setMouthColorYellow] |}).
Proof.
  revert sched.
  eapply barrier_alone; [reflexivity..|].
  intros sched. eapply barrier_batch.
  apply (batch_entry (length (waitGroups w))
           (fun name => go_color name (length (waitGroups w)))
           mouthCubes (trigger (Wait (length (waitGroups w))))).
  - constructor. intros x. constructor.
  - intros x. apply colorCube_worker.
  - apply new_group_zero.
Qed.

(** A goroutine of [unfreezeAllCubes] run on its own returns whatever
    fails, having dialled once, written each of its two messages at most
    once, and taken its count off the wait group. *)
Lemma unfreezeCube_once env name wg w n :
  waitGroups w !! wg = Some (S n) ->
  exists w' new,
    run env (unfreezeCube name wg) w = Some (tt, w') /\
    trace w' = trace w ++ new /\
    dials new = 1 /\
    (sent new = [] \/ sent new = [authMessage] \/
     exists data, sent new = [authMessage; data ++ delimiter]) /\
    waitGroups w' !! wg = Some n.
Proof.
  intros Hwg.
  assert (Hn : <[wg := n]> (waitGroups w) !! wg = Some n).
  { apply list_lookup_insert_eq. eapply lookup_lt_Some; eauto. }
  unfold unfreezeCube. run_step.
  destruct (dialed env (clock w)) eqn:Hd.
  - run_step. rewrite Hwg. eexists _, _. split; [reflexivity|]. cbn.
    rewrite <- ?app_assoc. split; [reflexivity|]. cbn. auto.
  - run_step. destruct (written env (S (clock w))) eqn:Hw1.
    + run_step. rewrite Hwg. eexists _, _. split; [reflexivity|]. cbn.
      rewrite <- ?app_assoc. split; [reflexivity|]. cbn. auto.
    + run_step. destruct (json_Marshal env _) eqn:Hj.
      * run_step. rewrite Hwg. eexists _, _. split; [reflexivity|]. cbn.
        rewrite <- ?app_assoc. split; [reflexivity|]. cbn.
        split; [reflexivity|]. split; [|exact Hn]. right. right.
        eexists. reflexivity.
      * run_step. rewrite Hwg. eexists _, _. split; [reflexivity|]. cbn.
        rewrite <- ?app_assoc. split; [reflexivity|]. cbn. auto.
Qed.

(** C5.  A fan-out batch -- [unfreezeAllCubes] over the N registered
    entities, [stiffenAllJoints] over the N registered links -- starts one
    goroutine per operation, and under every environment (any of the
    dials, writes and sends may fail) and every interleaving: when the
    caller has returned, all N goroutines have been started and have
    returned; from every state the batch reaches, the caller can still
    come to return, so that no failure wedges the batch; a step of one
    goroutine leaves every other thread as it is; and a goroutine returns
    whatever fails, without a second attempt at the dial or at a write. *)
Theorem batch_barrier (env : Env) (w : World) (sched : list nat) :
  barrier env (length (globalCubeList w))
    (exec env sched {| world := w; threads := [unfreezeAllCubes] |}) /\
  barrier env (length (globalCubeLinks w))
    (exec env sched {| world := w; threads := [stiffenAllJoints] |}) /\
  (forall s tid i,
     i <> tid -> i < length (threads s) ->
     threads (step env s tid) !! i = threads s !! i) /\
  (forall name wg w0 n,
     waitGroups w0 !! wg = Some (S n) ->
     exists w' new,
       run env (unfreezeCube name wg) w0 = Some (tt, w') /\
       trace w' = trace w0 ++ new /\
       dials new = 1 /\
       (sent new = [] \/ sent new = [authMessage] \/
        exists data, sent new = [authMessage; data ++ delimiter]) /\
       waitGroups w' !! wg = Some n).
Proof.
  split; [apply unfreezeAllCubes_barrier|].
  split; [apply stiffenAllJoints_barrier|].
  split; [apply step_frame|].
  intros name wg w0 n. apply unfreezeCube_once.
Qed.

Lemma batch_barrier_witness :
  threads (exec flakyEnv pairSchedule
             {| world := pairWorld; threads := [unfreezeAllCubes] |}) !! 0 =
  Some (Ret tt) /\
  length (threads (exec flakyEnv pairSchedule
                     {| world := pairWorld; threads := [unfreezeAllCubes] |}))
  = 3 /\
  Forall (fun t => returned t = true)
    (threads (exec flakyEnv pairSchedule
                {| world := pairWorld; threads := [unfreezeAllCubes] |})).
Proof.
  split; [vm_compute; reflexivity|].
  destruct (batch_barrier flakyEnv pairWorld pairSchedule) as [[H _] _].
  apply H. vm_compute. reflexivity.
Defined.

(** ** The registry only grows *)

Section Registry.

Variable env : Env.

Lemma appendedCubes_app tr1 tr2 :
  appendedCubes (tr1 ++ tr2) = appendedCubes tr1 ++ appendedCubes tr2.
Proof. unfold appendedCubes. apply flat_map_app. Qed.

Lemma appendedLinks_app tr1 tr2 :
  appendedLinks (tr1 ++ tr2) = appendedLinks tr1 ++ appendedLinks tr2.
Proof. unfold appendedLinks. apply flat_map_app. Qed.

(** The only events that change the registry are the two appends. *)
Lemma handle_registry X (e : event X) w x w' :
  handle env e w = Some (x, w') ->
  trace w' = trace w ++ [Obs e x] /\
  globalCubeList w' = globalCubeList w ++ appendedCubes [Obs e x] /\
  globalCubeLinks w' = globalCubeLinks w ++ appendedLinks [Obs e x].
Proof.
  unfold handle.
  destruct (respond env e w) as [[y w1]|] eqn:E; [|discriminate].
  intros H; inversion H; subst; clear H.
  destruct e; simpl in E;
    repeat match type of E with
           | context [match ?c with _ => _ end] => destruct c
           end;
    inversion E; subst; simpl; rewrite ?app_nil_r; auto.
Qed.

Lemma step_registry s tid :
  exists new,
    trace (world (step env s tid)) = trace (world s) ++ new /\
    globalCubeList (world (step env s tid)) =
    globalCubeList (world s) ++ appendedCubes new /\
    globalCubeLinks (world (step env s tid)) =
    globalCubeLinks (world s) ++ appendedLinks new.
Proof.
  unfold step.
  destruct (threads s !! tid) as [[a|X e k]|];
    try solve [exists []; simpl; rewrite !app_nil_r; auto].
  destruct (handle env e (world s)) as [[x w']|] eqn:E.
  - exists [Obs e x]. simpl. apply handle_registry. exact E.
  - exists []. simpl. rewrite !app_nil_r. auto.
Qed.

Lemma exec_registry sched : forall s,
  exists new,
    trace (world (exec env sched s)) = trace (world s) ++ new /\
    globalCubeList (world (exec env sched s)) =
    globalCubeList (world s) ++ appendedCubes new /\
    globalCubeLinks (world (exec env sched s)) =
    globalCubeLinks (world s) ++ appendedLinks new.
Proof.
  induction sched as [|tid sched IH]; intros s.
  - exists []. simpl. rewrite !app_nil_r. auto.
  - destruct (step_registry s tid) as (new1 & Ht1 & Hc1 & Hl1).
    destruct (IH (step env s tid)) as (new2 & Ht2 & Hc2 & Hl2).
    exists (new1 ++ new2). simpl.
    rewrite Ht2, Hc2, Hl2, Ht1, Hc1, Hl1.
    rewrite appendedCubes_app, appendedLinks_app, <- !app_assoc. auto.
Qed.

Lemma all_events_mono {A : Type} (P Q : forall X, event X -> Prop)
    (p : prog A) :
  (forall X (e : event X), P X e -> Q X e) ->
  all_events P p -> all_events Q p.
Proof. intros H. induction 1; constructor; auto. Qed.

Lemma still_harmless X (e : event X) : still X e -> harmless X e.
Proof. intros [H1 H2]. split; [exact H1|]. rewrite H2. constructor. Qed.

Lemma handle_reading X (e : event X) w x w' :
  reading X e -> handle env e w = Some (x, w') ->
  globalCubeList w' = globalCubeList w /\
  globalCubeLinks w' = globalCubeLinks w.
Proof.
  intros Hr H. apply handle_registry in H as (_ & Hc & Hl).
  rewrite Hc, Hl. destruct e; simpl in *; try contradiction;
    rewrite ?app_nil_r; auto.
Qed.

(** A pool of threads that never append leaves the registry as it is. *)
Lemma step_harmless s tid :
  Forall (all_events harmless) (threads s) ->
  Forall (all_events harmless) (threads (step env s tid)) /\
  globalCubeList (world (step env s tid)) = globalCubeList (world s) /\
  globalCubeLinks (world (step env s tid)) = globalCubeLinks (world s).
Proof.
  intros Hall. unfold step.
  destruct (threads s !! tid) as [p|] eqn:Ht; [|auto].
  assert (Hp : all_events harmless p)
    by (eapply Forall_lookup_1 in Hall; eauto).
  destruct Hp as [a|X e k [Hr Hs] Hk]; [auto|].
  destruct (handle env e (world s)) as [[x w']|] eqn:E; [|auto].
  simpl. split.
  - apply Forall_app. split.
    + apply Forall_insert; auto.
    + eapply Forall_impl; [exact Hs|].
      intros q Hq. eapply all_events_mono; [|exact Hq].
      apply still_harmless.
  - eapply handle_reading; eauto.
Qed.

Lemma exec_harmless sched : forall s,
  Forall (all_events harmless) (threads s) ->
  globalCubeList (world (exec env sched s)) = globalCubeList (world s) /\
  globalCubeLinks (world (exec env sched s)) = globalCubeLinks (world s).
Proof.
  induction sched as [|tid sched IH]; intros s Hall; [auto|].
  destruct (step_harmless s tid Hall) as (Hall' & Hc & Hl).
  destruct (IH _ Hall') as (Hc' & Hl').
  simpl. rewrite Hc', Hl'. auto.
Qed.

End Registry.

Lemma despawnCube_still name wg : all_events still (despawnCube name wg).
Proof. unfold despawnCube. events_by ltac:(split; [exact I|reflexivity]). Qed.

Lemma despawnAllCubes_harmless : all_events harmless despawnAllCubes.
Proof.
  unfold despawnAllCubes.
  events_by ltac:(split;
    [exact I
    |first [constructor; [apply despawnCube_still|constructor]
           |constructor]]).
Qed.

Lemma scanLinks_reading targetCube links :
  all_events reading (scanLinks targetCube links).
Proof.
  induction links as [|link links IH]; simpl; [events|].
  destruct (_ || _); [events|exact IH].
Qed.

Lemma batches_reading :
  all_events reading unfreezeAllCubes /\
  all_events reading despawnAllCubes /\
  all_events reading stiffenAllJoints /\
  all_events reading stiffenAllJointsBULK.
Proof.
  unfold unfreezeAllCubes, despawnAllCubes, stiffenAllJoints,
    stiffenAllJointsBULK.
  repeat split; events.
Qed.

Lemma sequential_reading :
  all_events reading SingleThreadedstiffenAllJoints /\
  all_events reading SingleTCPConnectionExamplestiffenAllJoints /\
  (forall targetCube, all_events reading (findClosestJoint targetCube)) /\
  (forall targetCube, all_events reading (rotateAllJointsForCube targetCube)).
Proof.
  unfold SingleThreadedstiffenAllJoints,
    SingleTCPConnectionExamplestiffenAllJoints, findClosestJoint,
    rotateAllJointsForCube.
  repeat split; intros; events; apply scanLinks_reading.
Qed.

Lemma goroutines_reading :
  (forall name wg, all_events reading (unfreezeCube name wg)) /\
  (forall name wg, all_events reading (despawnCube name wg)) /\
  (forall joint params wg,
     all_events reading (stiffenJoint joint params wg)) /\
  (forall joint params wg,
     all_events reading (stiffenJointBULK joint params wg)).
Proof.
  unfold unfreezeCube, despawnCube, stiffenJoint, stiffenJointBULK.
  repeat split; intros; events.
Qed.

(** C6.  No step of any thread of the program removes or replaces an
    element of the entity list or of the link list: after any
    interleaving each list is the list before followed by the elements
    appended meanwhile, in the order of the appends, so that its length
    has grown by their number.  [despawnAllCubes] appends nothing: it
    leaves both lists exactly as they were.  Of the functions that mention
    the registry only [spawnCube], [linkCubes] and [linkCubeChains] append
    to it; the others raise no event that writes it. *)
Theorem registry_append_only (env : Env) (sched : list nat) :
  (forall s, exists new,
     trace (world (exec env sched s)) = trace (world s) ++ new /\
     globalCubeList (world (exec env sched s)) =
     globalCubeList (world s) ++ appendedCubes new /\
     globalCubeLinks (world (exec env sched s)) =
     globalCubeLinks (world s) ++ appendedLinks new /\
     length (globalCubeList (world (exec env sched s))) =
     length (globalCubeList (world s)) + length (appendedCubes new) /\
     length (globalCubeLinks (world (exec env sched s))) =
     length (globalCubeLinks (world s)) + length (appendedLinks new)) /\
  (forall w,
     globalCubeList
       (world (exec env sched {| world := w; threads := [despawnAllCubes] |}))
     = globalCubeList w /\
     globalCubeLinks
       (world (exec env sched {| world := w; threads := [despawnAllCubes] |}))
     = globalCubeLinks w) /\
  (all_events reading unfreezeAllCubes /\
   all_events reading despawnAllCubes /\
   all_events reading SingleThreadedstiffenAllJoints /\
   all_events reading SingleTCPConnectionExamplestiffenAllJoints /\
   all_events reading stiffenAllJoints /\
   all_events reading stiffenAllJointsBULK /\
   (forall targetCube, all_events reading (findClosestJoint targetCube)) /\
   (forall targetCube,
      all_events reading (rotateAllJointsForCube targetCube)) /\
   (forall name wg, all_events reading (unfreezeCube name wg)) /\
   (forall name wg, all_events reading (despawnCube name wg)) /\
   (forall joint params wg,
      all_events reading (stiffenJoint joint params wg)) /\
   (forall joint params wg,
      all_events reading (stiffenJointBULK joint params wg))).
Proof.
  split; [|split].
  - intros s. destruct (exec_registry env sched s) as (new & Ht & Hc & Hl).
    exists new. rewrite Hc, Hl, !length_app. auto.
  - intros w.
    apply (exec_harmless env sched
             {| world := w; threads := [despawnAllCubes] |}).
    constructor; [apply despawnAllCubes_harmless|constructor].
  - destruct batches_reading as (H1 & H2 & H3 & H4).
    destruct sequential_reading as (H5 & H6 & H7 & H8).
    destruct goroutines_reading as (H9 & H10 & H11 & H12).
    repeat split; assumption.
Qed.

(** ** Actuation returns early *)

Section Actuation.

Variable env : Env.

Lemma launched_app tr1 tr2 :
  launched (tr1 ++ tr2) = launched tr1 ++ launched tr2.
Proof. unfold launched. apply flat_map_app. Qed.

Lemma started_launched X (e : event X) (x : X) :
  started e = map body (launched [Obs e x]).
Proof. destruct e; reflexivity. Qed.

Lemma handle_trace X (e : event X) w x w' :
  handle env e w = Some (x, w') -> trace w' = trace w ++ [Obs e x].
Proof. intros H. apply (handle_registry env) in H. tauto. Qed.

(** A run of the caller alone is an interleaving in which only the
    caller is scheduled; the goroutines it starts are left at their
    first instruction. *)
Lemma run_exec (p : prog unit) : forall w w' others,
  run env p w = Some (tt, w') ->
  exists n new,
    trace w' = trace w ++ new /\
    exec env (repeat 0 n) {| world := w; threads := p :: others |} =
    {| world := w';
       threads := Ret tt :: others ++ map body (launched new) |}.
Proof.
  induction p as [[]|X e k IH]; intros w w' others Hrun; simpl in Hrun.
  - inversion Hrun; subst. exists 0, []. simpl. rewrite !app_nil_r. auto.
  - destruct (handle env e w) as [[x w1]|] eqn:Eh; [|discriminate].
    destruct (IH x w1 w' (others ++ started e) Hrun) as (n & new & Ht & He).
    exists (S n), (Obs e x :: new). split.
    + rewrite Ht, (handle_trace _ _ _ _ _ Eh), <- app_assoc. reflexivity.
    + unfold exec in *. cbn [repeat fold_left].
      replace (step env {| world := w; threads := Vis e k :: others |} 0)
        with {| world := w1; threads := k x :: others ++ started e |}.
      * rewrite He. f_equal. f_equal.
        change (Obs e x :: new) with ([Obs e x] ++ new).
        rewrite launched_app, map_app, <- app_assoc.
        rewrite <- (started_launched X e x). reflexivity.
      * unfold step. simpl. rewrite Eh. reflexivity.
Qed.

(** A program of free events runs to its end, starts no goroutine and
    leaves the wait groups alone. *)
Lemma run_free {A : Type} (p : prog A) :
  all_events free p ->
  forall w, exists a w' new,
    run env p w = Some (a, w') /\
    trace w' = trace w ++ new /\
    launched new = [] /\
    waitGroups w' = waitGroups w.
Proof.
  induction 1 as [a|X e k He Hk IH]; intros w.
  - exists a, w, []. simpl. rewrite app_nil_r. auto.
  - destruct (free_enabled env X e w He) as (x & w1 & Eh).
    destruct (IH x w1) as (a & w' & new & Hr & Ht & Hl & Hg).
    exists a, w', (Obs e x :: new).
    split; [simpl; rewrite Eh; exact Hr|]. split; [|split].
    + rewrite Ht, (handle_trace _ _ _ _ _ Eh), <- app_assoc. reflexivity.
    + change (Obs e x :: new) with ([Obs e x] ++ new).
      rewrite launched_app, Hl, app_nil_r.
      destruct e; simpl in He; try contradiction; reflexivity.
    + rewrite Hg. eapply handle_quiet; [apply free_quiet, He|exact Eh].
Qed.

(** The loop of [rotateCubeJoints]: one [go] per joint and nothing
    else. *)
Lemma run_launch {A : Type} (mk : A -> goroutine) : forall xs w,
  exists w' new,
    run env (forRange xs (fun x => trigger (Go (mk x)))) w = Some (tt, w') /\
    trace w' = trace w ++ new /\
    launched new = map mk xs /\
    waitGroups w' = waitGroups w.
Proof.
  induction xs as [|x xs IH]; intros w.
  - exists w, []. simpl. rewrite app_nil_r. auto.
  - destruct (IH (record (Go (mk x)) tt w)) as (w' & new & Hr & Ht & Hl & Hg).
    exists w', (Obs (Go (mk x)) tt :: new).
    split; [exact Hr|]. split; [|split].
    + rewrite Ht. simpl. rewrite <- app_assoc. reflexivity.
    + change (Obs (Go (mk x)) tt :: new) with ([Obs (Go (mk x)) tt] ++ new).
      rewrite launched_app, Hl. reflexivity.
    + exact Hg.
Qed.

End Actuation.

Lemma getJointsForCube_free cubeName :
  all_events free (getJointsForCube cubeName).
Proof. unfold getJointsForCube. events. Qed.

Lemma rotateJoint_groupless jn velocity duration :
  all_events groupless (rotateJoint jn velocity duration).
Proof. unfold rotateJoint. events. Qed.

Lemma rotateCubeJoints_groupless cubeName velocity duration :
  all_events groupless (rotateCubeJoints cubeName velocity duration).
Proof. unfold rotateCubeJoints, getJointsForCube. events. Qed.

(** C10.  [rotateCubeJoints] starts one goroutine per joint that
    [getJointsForCube] discovered and returns without waiting for any of
    them: scheduled alone, the caller returns while each of these
    goroutines is still at its first instruction; neither the caller nor
    the goroutines use a wait group.  The other fan-out operations
    ([despawnAllCubes], [stiffenAllJointsBULK], [setMouthColorYellow]; for
    [unfreezeAllCubes] and [stiffenAllJoints] see C5) return only behind
    their barrier. *)
Theorem rotateCubeJoints_returns_early (env : Env) (cubeName : string)
    (velocity : float64) (duration : Duration) (w : World) :
  (exists joints w1 n w',
     run env (getJointsForCube cubeName) w = Some (joints, w1) /\
     exec env (repeat 0 n)
       {| world := w;
          threads := [rotateCubeJoints cubeName velocity duration] |} =
     {| world := w';
        threads :=
          Ret tt :: map (fun jn => rotateJoint jn velocity duration) joints |}
     /\
     Forall (fun t => returned t = false)
       (map (fun jn => rotateJoint jn velocity duration) joints) /\
     waitGroups w' = waitGroups w) /\
  all_events groupless (rotateCubeJoints cubeName velocity duration) /\
  (forall jn, all_events groupless (rotateJoint jn velocity duration)) /\
  (forall sched,
     barrier env (length (globalCubeList w))
       (exec env sched {| world := w; threads := [despawnAllCubes] |}) /\
     barrier env (length (globalCubeLinks w))
       (exec env sched {| world := w; threads := [stiffenAllJointsBULK] |}) /\
     barrier env (length mouthCubes)
       (exec env sched {| world := w; threads := [setMouthColorYellow] |})).
Proof.
  split; [|split; [apply rotateCubeJoints_groupless|split]].
  - destruct (run_free env (getJointsForCube cubeName)
                (getJointsForCube_free cubeName) w)
      as (joints & w1 & new1 & Hr1 & Ht1 & Hl1 & Hg1).
    assert (Hrun : exists w' new,
               run env (rotateCubeJoints cubeName velocity duration) w =
               Some (tt, w') /\
               trace w' = trace w ++ new /\
               launched new =
               map (fun jn => go_rotate jn velocity duration) joints /\
               waitGroups w' = waitGroups w).
    { unfold rotateCubeJoints. rewrite run_mbind, Hr1.
      destruct joints as [|jn joints].
      - eexists _, _. split; [reflexivity|]. simpl.
        rewrite Ht1, <- app_assoc. split; [reflexivity|].
        rewrite launched_app, Hl1. auto.
      - cbn [length Nat.eqb]. rewrite run_mbind.
        cbn [run trigger]. unfold handle. cbn [respond].
        destruct (run_launch env (fun jn => go_rotate jn velocity duration)
                    (jn :: joints)
                    (record (Printf
                       "🦴 Found %d joints for %s. Applying rotation...\n"
                       [Int (Z.of_nat (length (jn :: joints)));
                        Str cubeName]) tt w1))
          as (w' & new2 & Hr2 & Ht2 & Hl2 & Hg2).
        exists w'. eexists. split; [exact Hr2|].
        rewrite Ht2. simpl trace. rewrite Ht1, <- !app_assoc.
        split; [reflexivity|].
        rewrite !launched_app, Hl1, Hl2. split; [reflexivity|].
        rewrite Hg2. exact Hg1. }
    destruct Hrun as (w' & new & Hr & Ht & Hl & Hg).
    destruct (run_exec env _ w w' [] Hr) as (n & new' & Ht' & He).
    assert (new' = new) as -> by (rewrite Ht in Ht'; eapply app_inv_head; eauto).
    exists joints, w1, n, w'. split; [exact Hr1|]. split; [|split].
    + rewrite He, Hl, map_map. reflexivity.
    + apply Forall_map_intro. reflexivity.
    + exact Hg.
  - intros jn. apply rotateJoint_groupless.
  - intros sched. split; [apply despawnAllCubes_barrier|].
    split; [apply stiffenAllJointsBULK_barrier|].
    apply setMouthColorYellow_barrier.
Qed.

Example rotateCubeJoints_in_flight :
  map returned
    (threads (exec sampleEnv (repeat 0 13)
                {| world := sampleWorld;
                   threads := [rotateCubeJoints "tail3_BASE" (-3)%float
                                 (800 * Millisecond)%Z] |})) =
  [true; false; false].
Proof. vm_compute. reflexivity. Qed.

(* ================================================================== *)
(** * Part 5. Further properties of the code *)
(* ================================================================== *)

(** ** The decoder, more closely *)

Lemma complete_no_dash d s : ~ In d s -> complete d s = [].
Proof.
  intros Hn. destruct s as [|c s]; [reflexivity|].
  unfold complete; fold complete.
  destruct (existsb (Ascii.eqb d) (c :: s)) eqn:E; [|reflexivity].
  apply existsb_eqb_In in E. contradiction.
Qed.

Lemma complete_keeps d a b :
  In d b -> complete d (a ++ b) = a ++ complete d b.
Proof.
  intros Hb. induction a as [|c a IH]; [reflexivity|].
  change ((c :: a) ++ b) with (c :: a ++ b).
  unfold complete; fold complete.
  replace (existsb (Ascii.eqb d) (c :: a ++ b)) with true.
  - rewrite IH. reflexivity.
  - symmetry. apply existsb_eqb_In. right. apply in_or_app. auto.
Qed.

(** The longest prefix that ends in [d], from a split at the last [d]. *)
Lemma complete_split d a b :
  (a = [] \/ exists pre, a = pre ++ [d]) -> ~ In d b ->
  complete d (a ++ b) = a.
Proof.
  intros [->|(pre & ->)] Hb.
  - apply complete_no_dash. exact Hb.
  - rewrite <- app_assoc. rewrite complete_keeps by (left; reflexivity).
    simpl. rewrite Ascii.eqb_refl. simpl.
    rewrite (complete_no_dash d b Hb). reflexivity.
Qed.

Lemma readLoop_all_reads cs fin :
  Forall (fun c => c <> []) cs ->
  readLoop (NewReader {| chunks := cs; closing := fin |}) [] =
  complete "-" (concat cs).
Proof.
  intros Hne.
  rewrite (readLoop_complete (S (pending (NewReader
             {| chunks := cs; closing := fin |})))); [|lia|exact Hne].
  reflexivity.
Qed.

(** X1.  When every read returns data, [readResponse] decodes exactly the
    bytes delivered up to the last dash: whatever follows the last dash
    -- the fragment that [ReadString] returns together with the error --
    is never part of the result. *)
Theorem readResponse_drops_the_tail (cs : list bytes) (fin : error)
    (a b : bytes) :
  Forall (fun c => c <> []) cs ->
  concat cs = a ++ b ->
  (a = [] \/ exists pre, a = pre ++ ["-"%char]) ->
  ~ In "-"%char b ->
  readResponse {| chunks := cs; closing := fin |} =
  (TrimSpace (ReplaceAll a delimiter []), None).
Proof.
  intros Hne Hcs Ha Hb. unfold readResponse.
  rewrite (readLoop_all_reads cs fin Hne), Hcs, (complete_split _ _ _ Ha Hb).
  reflexivity.
Qed.

Lemma readResponse_drops_the_tail_witness :
  Forall (fun c => c <> []) [B "{}<???DONE???---tr"; B "ailing"] /\
  concat [B "{}<???DONE???---tr"; B "ailing"] =
  B "{}<???DONE???---" ++ B "trailing" /\
  (B "{}<???DONE???---" = [] \/
   exists pre, B "{}<???DONE???---" = pre ++ ["-"%char]) /\
  ~ In "-"%char (B "trailing") /\
  readResponse {| chunks := [B "{}<???DONE???---tr"; B "ailing"];
                  closing := EOF |} =
  (TrimSpace (ReplaceAll (B "{}<???DONE???---") delimiter []), None).
Proof.
  assert (H1 : Forall (fun c : bytes => c <> [])
                 [B "{}<???DONE???---tr"; B "ailing"])
    by (repeat constructor; discriminate).
  assert (H3 : B "{}<???DONE???---" = [] \/
               exists pre, B "{}<???DONE???---" = pre ++ ["-"%char])
    by (right; exists (B "{}<???DONE???--"); reflexivity).
  assert (H4 : ~ In "-"%char (B "trailing"))
    by (simpl; intuition discriminate).
  split; [exact H1|]. split; [reflexivity|].
  split; [exact H3|]. split; [exact H4|].
  exact (readResponse_drops_the_tail
           [B "{}<???DONE???---tr"; B "ailing"] EOF
           (B "{}<???DONE???---") (B "trailing") H1 eq_refl H3 H4).
Defined.

(** X2.  A stream that delivers no dash at all -- whatever its chunks,
    empty reads included, and whatever error ends it -- decodes to the
    empty text with a nil error: a response is lost unless a dash
    arrives. *)
Theorem readResponse_without_dash (conn : Stream) :
  ~ In "-"%char (concat (chunks conn)) ->
  readResponse conn = ([], None).
Proof.
  intros Hn.
  destruct (readLoop_prefix (S (pending (NewReader conn)))
              (NewReader conn) []) as (acc & E & Hp & Hend); [lia|].
  unfold readResponse. rewrite E. simpl.
  destruct Hend as [->|(pre & ->)]; [reflexivity|].
  exfalso. apply Hn. destruct Hp as [rest Hrest]. simpl in Hrest.
  rewrite Hrest, <- app_assoc. apply in_or_app. right. left. reflexivity.
Qed.

Lemma readResponse_without_dash_witness :
  ~ In "-"%char (concat (chunks {| chunks := [B "{}"; []; B "ok"];
                                   closing := ErrDeadline |})) /\
  readResponse {| chunks := [B "{}"; []; B "ok"]; closing := ErrDeadline |} =
  ([], None).
Proof.
  assert (H : ~ In "-"%char (concat (chunks {| chunks := [B "{}"; []; B "ok"];
                                                closing := ErrDeadline |})))
    by (simpl; intuition discriminate).
  split; [exact H|].
  exact (readResponse_without_dash _ H).
Defined.

(** ** Several frames in one read window *)

Section FrameFacts.

Variables (h : ascii) (tl : bytes).
Hypothesis h_fresh : ~ In h tl.
Let old := h :: tl.

Lemma replaceFrom_skip new b : forall s,
  replaceFrom old new (length s) (s ++ b) = replaceFrom old new 0 b.
Proof.
  induction s as [|c s IH]; [reflexivity|]. simpl. exact IH.
Qed.

(** An occurrence of [old] that starts inside [s] and reaches into a copy
    of [old] that follows [s] lies within [s], whatever comes after. *)
Lemma no_straddle_mid s b :
  s <> [] -> HasPrefix (s ++ old ++ b) old = true -> HasPrefix s old = true.
Proof using h_fresh.
  destruct s as [|c s]; [congruence|]. intros _ H.
  simpl in H. apply andb_true_iff in H as [Hc H].
  apply Ascii.eqb_eq in Hc. subst c.
  apply HasPrefix_true in H as [t E].
  apply app_eq_app in E as [l [[-> _]|[E1 E2]]].
  - exact (HasPrefix_app (h :: tl) l).
  - destruct l as [|x l].
    + rewrite app_nil_r in E1. subst tl. apply HasPrefix_refl.
    + inversion E2; subst x. exfalso. apply h_fresh.
      rewrite E1. apply in_or_app. right. left. reflexivity.
Qed.

Lemma ReplaceAll_frame data b :
  Contains data old = false ->
  ReplaceAll (data ++ old ++ b) old [] = data ++ ReplaceAll b old [].
Proof using h_fresh.
  unfold ReplaceAll, old. induction data as [|c data IH]; intros Hc.
  - change ([] ++ (h :: tl) ++ b) with (h :: tl ++ b).
    unfold replaceFrom; fold replaceFrom.
    change (h :: tl ++ b) with ((h :: tl) ++ b).
    rewrite (HasPrefix_app (h :: tl) b).
    replace (length (h :: tl) - 1) with (length tl) by (simpl; lia).
    exact (replaceFrom_skip [] b tl).
  - simpl in Hc. apply orb_false_iff in Hc as [Hp Hc].
    change ((c :: data) ++ (h :: tl) ++ b)
      with (c :: data ++ (h :: tl) ++ b).
    unfold replaceFrom; fold replaceFrom.
    destruct (HasPrefix (c :: data ++ (h :: tl) ++ b) (h :: tl)) eqn:E.
    + apply (no_straddle_mid (c :: data) b) in E; [|discriminate].
      simpl in E, Hp. congruence.
    + rewrite (IH Hc). reflexivity.
Qed.

Lemma ReplaceAll_frames ds :
  Forall (fun d => Contains d old = false) ds ->
  ReplaceAll (flat_map (fun d => d ++ old) ds) old [] = concat ds.
Proof using h_fresh.
  induction 1 as [|d ds Hd _ IH]; [reflexivity|].
  simpl. rewrite <- app_assoc, (ReplaceAll_frame d _ Hd), IH. reflexivity.
Qed.

End FrameFacts.

Lemma frames_end_in_dash : forall ds : list bytes,
  flat_map (fun d => d ++ delimiter) ds = [] \/
  exists pre, flat_map (fun d => d ++ delimiter) ds = pre ++ ["-"%char].
Proof.
  induction ds as [|d ds IH]; [left; reflexivity|]. right.
  simpl. destruct IH as [->|(pre & ->)].
  - exists (d ++ B "<???DONE???--"). rewrite app_nil_r, <- app_assoc.
    reflexivity.
  - exists ((d ++ delimiter) ++ pre). rewrite <- !app_assoc. reflexivity.
Qed.

(** X3.  When the frames of several messages arrive before the stream
    fails -- each payload free of the sentinel, every read returning
    data -- one call of [readResponse] returns all the payloads run
    together and trimmed as one text: the sentinel does not separate
    messages for the reader. *)
Theorem readResponse_merges_frames (cs ds : list bytes) (fin : error) :
  Forall (fun c => c <> []) cs ->
  Forall (fun d => Contains d delimiter = false) ds ->
  concat cs = flat_map (fun d => d ++ delimiter) ds ->
  readResponse {| chunks := cs; closing := fin |} =
  (TrimSpace (concat ds), None).
Proof.
  intros Hne Hds Hcs. unfold readResponse.
  rewrite (readLoop_all_reads cs fin Hne), Hcs.
  replace (complete "-" (flat_map (fun d => d ++ delimiter) ds))
    with (flat_map (fun d => d ++ delimiter) ds).
  - rewrite (ReplaceAll_frames "<"%char (B "???DONE???---")); [reflexivity| |exact Hds].
    simpl. intuition discriminate.
  - symmetry.
    rewrite <- (app_nil_r (flat_map (fun d => d ++ delimiter) ds)) at 1.
    apply complete_split; [apply frames_end_in_dash|simpl; tauto].
Qed.

Lemma readResponse_merges_frames_witness :
  Forall (fun c => c <> [])
    [B "{'a':1}<???DONE???---{'b'"; B ":2}<???DONE???---"] /\
  Forall (fun d => Contains d delimiter = false) [B "{'a':1}"; B "{'b':2}"] /\
  concat [B "{'a':1}<???DONE???---{'b'"; B ":2}<???DONE???---"] =
  flat_map (fun d => d ++ delimiter) [B "{'a':1}"; B "{'b':2}"] /\
  readResponse {| chunks := [B "{'a':1}<???DONE???---{'b'";
                             B ":2}<???DONE???---"];
                  closing := ErrDeadline |} =
  (TrimSpace (concat [B "{'a':1}"; B "{'b':2}"]), None).
Proof.
  assert (H1 : Forall (fun c : bytes => c <> [])
                 [B "{'a':1}<???DONE???---{'b'"; B ":2}<???DONE???---"])
    by (repeat constructor; discriminate).
  assert (H2 : Forall (fun d => Contains d delimiter = false)
                 [B "{'a':1}"; B "{'b':2}"])
    by (repeat constructor).
  split; [exact H1|]. split; [exact H2|]. split; [reflexivity|].
  exact (readResponse_merges_frames
           [B "{'a':1}<???DONE???---{'b'"; B ":2}<???DONE???---"]
           [B "{'a':1}"; B "{'b':2}"] ErrDeadline H1 H2 eq_refl).
Defined.

(** ** The ends of a trimmed text *)

Lemma trimWith_suffix p2 p3 : forall n s, length s <= n ->
  exists pre, s = pre ++ trimWith p2 p3 s.
Proof.
  induction n as [|n IH]; intros s Hn.
  - destruct s; [exists []; reflexivity|simpl in Hn; lia].
  - destruct s as [|a s1]; [exists []; reflexivity|].
    simpl in Hn. simpl.
    destruct (space1 a).
    { destruct (IH s1) as [pre E]; [lia|].
      exists (a :: pre). simpl. congruence. }
    destruct s1 as [|b s2]; [exists []; reflexivity|]. simpl in Hn.
    destruct (p2 a b).
    { destruct (IH s2) as [pre E]; [lia|].
      exists (a :: b :: pre). simpl. congruence. }
    destruct s2 as [|c s3]; [exists []; reflexivity|]. simpl in Hn.
    destruct (p3 a b c).
    { destruct (IH s3) as [pre E]; [lia|].
      exists (a :: b :: c :: pre). simpl. congruence. }
    exists []. reflexivity.
Qed.

Lemma trimWith_head p2 p3 : forall n s, length s <= n ->
  match trimWith p2 p3 s with
  | [] => True
  | a :: _ => space1 a = false
  end.
Proof.
  induction n as [|n IH]; intros s Hn.
  - destruct s; [exact I|simpl in Hn; lia].
  - destruct s as [|a s1]; [exact I|].
    simpl in Hn. simpl.
    destruct (space1 a) eqn:Ea; [apply IH; lia|].
    destruct s1 as [|b s2]; [exact Ea|]. simpl in Hn.
    destruct (p2 a b); [apply IH; lia|].
    destruct s2 as [|c s3]; [exact Ea|]. simpl in Hn.
    destruct (p3 a b c); [apply IH; lia|exact Ea].
Qed.

Lemma TrimSpace_ends s :
  match TrimSpace s with
  | [] => True
  | a :: _ => space1 a = false
  end /\
  match rev (TrimSpace s) with
  | [] => True
  | z :: _ => space1 z = false
  end.
Proof.
  unfold TrimSpace, TrimRightSpace.
  set (x := TrimLeftSpace s).
  set (p2 := fun a b => space2 b a). set (p3 := fun a b c => space3 c b a).
  pose proof (trimWith_head space2 space3 _ s (Nat.le_refl _)) as Hx.
  fold (TrimLeftSpace s) in Hx. fold x in Hx.
  pose proof (trimWith_head p2 p3 _ (rev x) (Nat.le_refl _)) as Hr.
  destruct (trimWith_suffix p2 p3 _ (rev x) (Nat.le_refl _)) as [pre E].
  split.
  - apply (f_equal (@rev ascii)) in E.
    rewrite rev_involutive, rev_app_distr in E.
    destruct (rev (trimWith p2 p3 (rev x))) as [|a t]; [exact I|].
    rewrite E in Hx. exact Hx.
  - rewrite rev_involutive. exact Hr.
Qed.

(** X4.  The text [readResponse] returns, when it is not empty, neither
    begins nor ends with an ASCII white-space byte (tab, line feed,
    vertical tab, form feed, carriage return, space), whatever the
    connection delivers. *)
Theorem readResponse_trimmed (conn : Stream) :
  match fst (readResponse conn) with
  | [] => True
  | a :: _ => space1 a = false
  end /\
  match rev (fst (readResponse conn)) with
  | [] => True
  | z :: _ => space1 z = false
  end.
Proof. unfold readResponse. simpl. apply TrimSpace_ends. Qed.

(** ** What a program ensures on every path *)

Section Paths.

Variable env : Env.

(** A run of [p] is one of its paths; the registry after the run is the
    registry before it followed by what the trace appends. *)
Lemma run_ensures {A : Type} (p : prog A) : forall P w a w',
  ensures p P -> run env p w = Some (a, w') ->
  exists new,
    trace w' = trace w ++ new /\
    globalCubeList w' = globalCubeList w ++ appendedCubes new /\
    globalCubeLinks w' = globalCubeLinks w ++ appendedLinks new /\
    P new a.
Proof.
  induction p as [a0|X e k IH]; intros P w a w' Hp Hrun; simpl in *.
  - inversion Hrun; subst. exists []. simpl. rewrite !app_nil_r. auto.
  - destruct (handle env e w) as [[x w1]|] eqn:Eh; [|discriminate].
    destruct (IH x _ w1 a w' (Hp x) Hrun) as (new & Ht & Hc & Hl & HP).
    apply (handle_registry env) in Eh as (Ht1 & Hc1 & Hl1).
    exists (Obs e x :: new).
    change (Obs e x :: new) with ([Obs e x] ++ new) at 1 2 3.
    rewrite appendedCubes_app, appendedLinks_app.
    rewrite Ht, Hc, Hl, Ht1, Hc1, Hl1, <- !app_assoc. auto.
Qed.

End Paths.

Lemma ensures_mono {A : Type} (p : prog A) : forall (P Q : list obs -> A -> Prop),
  (forall tr a, P tr a -> Q tr a) -> ensures p P -> ensures p Q.
Proof.
  induction p as [a|X e k IH]; intros P Q HPQ Hp; simpl in *.
  - apply HPQ, Hp.
  - intros x. eapply IH; [|apply Hp]. intros tr a. apply HPQ.
Qed.


(** A goroutine of a batch run on its own returns, whatever fails, and
    takes its count off the wait group. *)
Lemma run_worker env wg (p : prog unit) :
  worker free wg p ->
  forall w n, waitGroups w !! wg = Some (S n) ->
  exists w', run env p w = Some (tt, w') /\
             waitGroups w' = <[wg := n]> (waitGroups w).
Proof.
  induction 1 as [k Hk|X e k He Hk IH]; intros w n Hwg.
  - simpl. unfold handle. simpl. rewrite Hwg, (Hk tt). simpl. eauto.
  - destruct (free_enabled env X e w He) as (x & w1 & Eh).
    assert (Hg : waitGroups w1 = waitGroups w)
      by (eapply handle_quiet; [apply free_quiet, He|exact Eh]).
    destruct (IH x w1 n) as (w' & Hr & Hg'); [rewrite Hg; exact Hwg|].
    exists w'. simpl. rewrite Eh. split; [exact Hr|]. rewrite Hg', Hg.
    reflexivity.
Qed.

(** Follow a program along all its paths, by cases on the answers that
    report success or failure. *)
Ltac paths :=
  cbn;
  repeat (match goal with
          | |- forall _ : ?T, _ =>
            let x := fresh "x" in
            intros x;
            match T with
            | (_ + _)%type => destruct x
            | option _ => destruct x
            | unit => destruct x
            | _ => idtac
            end
          end; cbn).

Ltac conjuncts := repeat match goal with |- _ /\ _ => split end.

Lemma worker_outcome env wg (p : prog unit) (P : list obs -> unit -> Prop) :
  worker free wg p -> ensures p P ->
  forall w n, waitGroups w !! wg = Some (S n) ->
  exists w' new,
    run env p w = Some (tt, w') /\
    trace w' = trace w ++ new /\
    globalCubeList w' = globalCubeList w ++ appendedCubes new /\
    globalCubeLinks w' = globalCubeLinks w ++ appendedLinks new /\
    waitGroups w' = <[wg := n]> (waitGroups w) /\
    P new tt.
Proof.
  intros Hw Hp w n Hwg.
  destruct (run_worker env wg p Hw w n Hwg) as (w' & Hr & Hg).
  destruct (run_ensures env p P w tt w' Hp Hr) as (new & Ht & Hc & Hl & HP).
  exists w', new. auto 10.
Qed.

Lemma free_outcome env {A : Type} (p : prog A)
    (P : list obs -> A -> Prop) :
  all_events free p -> ensures p P ->
  forall w, exists a w' new,
    run env p w = Some (a, w') /\
    trace w' = trace w ++ new /\
    globalCubeList w' = globalCubeList w ++ appendedCubes new /\
    globalCubeLinks w' = globalCubeLinks w ++ appendedLinks new /\
    waitGroups w' = waitGroups w /\
    P new a.
Proof.
  intros Hf Hp w.
  destruct (run_free env p Hf w) as (a & w' & new0 & Hr & _ & _ & Hg).
  destruct (run_ensures env p P w a w' Hp Hr) as (new & Ht & Hc & Hl & HP).
  exists a, w', new. auto 10.
Qed.


(** ** One entity's life on one connection *)





(** ** Linking two entities *)

Lemma linkCubes_returns env cubeA cubeB jointType jointName w :
  held w linkListMutex = false ->
  exists w',
    run env (linkCubes cubeA cubeB jointType jointName) w = Some (tt, w') /\
    held w' linkListMutex = false /\
    waitGroups w' = waitGroups w.
Proof.
  intros Hm. unfold linkCubes. run_step.
  destruct (dialed env (clock w)); [eexists; split; [reflexivity|auto]|].
  run_step.
  destruct (written env _); [eexists; split; [reflexivity|auto]|].
  run_step.
  destruct (json_Marshal env _); [|eexists; split; [reflexivity|auto]].
  run_step.
  destruct (written env _); [eexists; split; [reflexivity|auto]|].
  run_step. rewrite Hm. run_step.
  eexists; split; [reflexivity|auto].
Qed.

Lemma linkCubes_paths cubeA cubeB jointType jointName :
  ensures (linkCubes cubeA cubeB jointType jointName) (fun new _ =>
    appendedCubes new = [] /\
    dials new = 1 /\
    closed new = opened new /\
    if existsb failed new then appendedLinks new = []
    else
      appendedLinks new = [{| JointName := jointName;
                              CubeA := cubeA; CubeB := cubeB |}] /\
      exists pre post,
        new = pre ++
              [Obs (Lock linkListMutex) tt;
               Obs (AppendLink {| JointName := jointName;
                                  CubeA := cubeA; CubeB := cubeB |}) tt;
               Obs (Unlock linkListMutex) tt] ++ post /\
        Forall (fun o => match obs_event o with
                         | Incoming _ => False
                         | _ => True
                         end) post).
Proof.
  unfold linkCubes. paths.
  all: conjuncts; try reflexivity.
  eexists [_; _; _; _; _], [_; _]. split; [reflexivity|].
  repeat constructor.
Qed.

(** X6.  [linkCubes] returns whatever fails, over one connection that it
    closes.  When nothing failed -- the dial, the write of the password,
    the encoding and the write of the [create_joint] command -- it has
    appended the link (joint name, A, B) to the link registry, once,
    between taking and releasing the registry's lock, without reading
    the server's answer to the command; when anything failed the link
    registry is unchanged.  The entity registry is never touched. *)
Theorem linkCubes_registers (env : Env)
    (cubeA cubeB jointType jointName : string) (w : World) :
  held w linkListMutex = false ->
  exists w' new,
    run env (linkCubes cubeA cubeB jointType jointName) w = Some (tt, w') /\
    trace w' = trace w ++ new /\
    globalCubeList w' = globalCubeList w /\
    held w' linkListMutex = false /\
    dials new = 1 /\
    closed new = opened new /\
    if existsb failed new
    then globalCubeLinks w' = globalCubeLinks w
    else globalCubeLinks w' =
         globalCubeLinks w ++ [{| JointName := jointName;
                                  CubeA := cubeA; CubeB := cubeB |}] /\
         exists pre post,
           new = pre ++
                 [Obs (Lock linkListMutex) tt;
                  Obs (AppendLink {| JointName := jointName;
                                     CubeA := cubeA; CubeB := cubeB |}) tt;
                  Obs (Unlock linkListMutex) tt] ++ post /\
           Forall (fun o => match obs_event o with
                            | Incoming _ => False
                            | _ => True
                            end) post.
Proof.
  intros Hm.
  destruct (linkCubes_returns env cubeA cubeB jointType jointName w Hm)
    as (w' & Hr & Hh & _).
  destruct (run_ensures env _ _ w tt w'
              (linkCubes_paths cubeA cubeB jointType jointName) Hr)
    as (new & Ht & Hc & Hl & Hc0 & Hd & Hcl & HP).
  exists w', new. rewrite Hc0, app_nil_r in Hc.
  conjuncts; auto.
  destruct (existsb failed new).
  - rewrite HP, app_nil_r in Hl. exact Hl.
  - destruct HP as (Ha & HP). rewrite Ha in Hl. auto.
Qed.

Lemma linkCubes_registers_witness :
  held sampleWorld linkListMutex = false /\
  exists w' new,
    run sampleEnv (linkCubes "tail1_BASE" "tail2_BASE" "hinge" "tail_joint1")
      sampleWorld = Some (tt, w') /\
    trace w' = trace sampleWorld ++ new /\
    globalCubeList w' = globalCubeList sampleWorld /\
    held w' linkListMutex = false /\
    dials new = 1 /\
    closed new = opened new /\
    if existsb failed new
    then globalCubeLinks w' = globalCubeLinks sampleWorld
    else globalCubeLinks w' =
         globalCubeLinks sampleWorld ++
         [{| JointName := "tail_joint1";
             CubeA := "tail1_BASE"; CubeB := "tail2_BASE" |}] /\
         exists pre post,
           new = pre ++
                 [Obs (Lock linkListMutex) tt;
                  Obs (AppendLink {| JointName := "tail_joint1";
                                     CubeA := "tail1_BASE";
                                     CubeB := "tail2_BASE" |}) tt;
                  Obs (Unlock linkListMutex) tt] ++ post /\
           Forall (fun o => match obs_event o with
                            | Incoming _ => False
                            | _ => True
                            end) post.
Proof.
  split; [reflexivity|].
  apply (linkCubes_registers sampleEnv "tail1_BASE" "tail2_BASE" "hinge"
           "tail_joint1" sampleWorld).
  reflexivity.
Defined.

(** ** Asking for the joints of an entity *)

Lemma getJointsForCube_paths cubeName :
  ensures (getJointsForCube cubeName) (fun new joints =>
    appendedCubes new = [] /\ appendedLinks new = [] /\
    dials new = 1 /\
    closed new = opened new /\
    if existsb failed new then joints = []
    else exists pre conn reply resp,
      new = pre ++ [Obs (Incoming conn) reply;
                    Obs (Unmarshal (fst (readResponse reply))) (inl resp);
                    Obs (Close conn) tt] /\
      joints = Joints resp).
Proof.
  unfold getJointsForCube. paths.
  all: conjuncts; try reflexivity.
  eexists [_; _; _; _; _], _, _, _. split; reflexivity.
Qed.

(** X7.  [getJointsForCube] always returns, over one connection that it
    closes, without touching the registries or a wait group.  It returns
    nil as soon as anything fails -- the dial, a write, the encoding of
    the command, the decoding of the reply; otherwise it returns the
    joints that [json.Unmarshal] decoded from the text [readResponse]
    made of the last stream read, the reply to its command. *)
Theorem getJointsForCube_result (env : Env) (cubeName : string) (w : World) :
  exists joints w' new,
    run env (getJointsForCube cubeName) w = Some (joints, w') /\
    trace w' = trace w ++ new /\
    globalCubeList w' = globalCubeList w /\
    globalCubeLinks w' = globalCubeLinks w /\
    waitGroups w' = waitGroups w /\
    dials new = 1 /\
    closed new = opened new /\
    if existsb failed new then joints = []
    else exists pre conn reply resp,
      new = pre ++ [Obs (Incoming conn) reply;
                    Obs (Unmarshal (fst (readResponse reply))) (inl resp);
                    Obs (Close conn) tt] /\
      joints = Joints resp.
Proof.
  destruct (free_outcome env _ _ (getJointsForCube_free cubeName)
              (getJointsForCube_paths cubeName) w)
    as (joints & w' & new & Hr & Ht & Hc & Hl & Hg & Hc0 & Hl0 & HP).
  exists joints, w', new.
  rewrite Hc0, app_nil_r in Hc. rewrite Hl0, app_nil_r in Hl. auto 10.
Qed.

(** ** One actuation cycle of a joint *)




(** ** Connections *)

Lemma tidy_bind {A B : Type} st st' st'' (p : prog A) (f : A -> prog B) :
  tidy st st' p -> (forall a, tidy st' st'' (f a)) -> tidy st st'' (bind p f).
Proof.
  intros Hp Hf. induction Hp; simpl; [apply Hf|..]; constructor; auto.
Qed.

Lemma tidy_dial_bind {B : Type} st' network address
    (f : Conn + error -> prog B) :
  (forall conn, tidy (Some conn) st' (f (inl conn))) ->
  (forall err, tidy None st' (f (inr err))) ->
  tidy None st' (trigger (Dial network address) ≫= f).
Proof. intros H1 H2. apply tidy_dial; assumption. Qed.

Lemma tidy_forRange {A : Type} st (body : A -> prog unit) xs :
  (forall x, tidy st st (body x)) -> tidy st st (forRange xs body).
Proof.
  intros Hb. induction xs as [|x xs IH]; simpl; [constructor|].
  eapply tidy_bind; [apply Hb|intros _; exact IH].
Qed.

Lemma tidy_forCount st (body : nat -> prog unit) : forall count start,
  (forall i, tidy st st (body i)) -> tidy st st (forCount count start body).
Proof.
  intros count start Hb. revert start.
  induction count as [|count IH]; intros start; simpl; [constructor|].
  eapply tidy_bind; [apply Hb|intros _; apply IH].
Qed.

Ltac sessions :=
  repeat first
    [ progress cbv beta zeta
    | progress unfold sendJSONMessage, readResponseOf, setJointParam,
        setJointParams, linkChain
    | apply tidy_ret
    | match goal with
      | |- tidy _ _ (match ?x with _ => _ end) => destruct x
      | |- tidy _ _ (if ?x then _ else _) => destruct x
      | |- tidy _ _ (forRange _ _) => apply tidy_forRange; intros ?
      | |- tidy _ _ (forCount _ _ _) => apply tidy_forCount; intros ?
      | |- tidy _ _ (trigger (Dial _ _) ≫= _) =>
        apply tidy_dial_bind; intros ?
      | |- tidy _ _ (bind _ _) => eapply tidy_bind; [|intros ?]
      | |- tidy _ _ (_ ≫= _) => eapply tidy_bind; [|intros ?]
      end
    | apply tidy_dial; intros ?
    | apply tidy_write; intros ?
    | apply tidy_incoming; intros ?
    | apply tidy_close; intros ?
    | apply tidy_other; [exact I|intros ?] ].

Lemma scanLinks_tidy st targetCube links :
  tidy st st (scanLinks targetCube links).
Proof. induction links as [|link links IH]; simpl; sessions. exact IH. Qed.

Lemma operation_tidy A (p : prog A) : operation A p -> tidy None None p.
Proof.
  destruct 1.
  - unfold handleCube. sessions.
  - unfold spawnCube. sessions.
  - unfold unfreezeCube. sessions.
  - unfold despawnCube. sessions.
  - unfold linkCubes. sessions.
  - unfold stiffenJoint. sessions.
  - unfold SingleThreadedstiffenAllJoints. sessions.
  - unfold SingleTCPConnectionExamplestiffenAllJoints. sessions.
  - unfold stiffenJointBULK. sessions.
  - unfold colorCube. sessions.
  - unfold testLinkBodyCubes. sessions.
  - unfold linkCubeChains. sessions.
  - unfold rotateLegDemo. sessions.
  - unfold rotateCube. sessions.
  - unfold rotateAllJointsForCube. sessions.
  - unfold getJointsForCube. sessions.
  - unfold rotateJoint. sessions.
  - unfold rotateCubeJoints, getJointsForCube. sessions.
Qed.

Lemma conn_step_offline st X (e : event X) (x : X) :
  offline X e -> conn_step st (Obs e x) = Some st.
Proof. destruct e; simpl; intros H; try contradiction; reflexivity. Qed.

Lemma tidy_ensures {A : Type} st st' (p : prog A) :
  tidy st st' p -> ensures p (fun tr _ => follow st tr = Some st').
Proof.
  induction 1 as [st a|st' n ad k _ IH1 _ IH2|c st' data k _ IH|c st' k _ IH
                 |c st' k _ IH|st st' X e k He _ IH]; simpl.
  - reflexivity.
  - intros [conn|err]; [apply IH1|apply IH2].
  - intros x. rewrite Nat.eqb_refl. apply IH.
  - intros x. rewrite Nat.eqb_refl. apply IH.
  - intros x. rewrite Nat.eqb_refl. apply IH.
  - intros x. eapply ensures_mono; [|apply IH].
    intros tr a0 Htr.
    change (match conn_step st (Obs e x) with
            | Some st1 => follow st1 tr
            | None => None
            end = Some st').
    rewrite (conn_step_offline st X e x He).
    exact Htr.
Qed.

Lemma conn_step_balance st o st1 :
  conn_step st o = Some st1 ->
  option_list st ++ opened [o] = closed [o] ++ option_list st1.
Proof.
  destruct o as [X e x]. destruct e; simpl; intros E;
    try (inversion E; subst; rewrite app_nil_r; reflexivity).
  - destruct st; [discriminate|]. destruct x; inversion E; reflexivity.
  - destruct st as [c|]; [|discriminate].
    destruct (c =? conn); inversion E; subst. rewrite app_nil_r. reflexivity.
  - destruct st as [c|]; [|discriminate].
    destruct (c =? conn); inversion E; subst. rewrite app_nil_r. reflexivity.
  - destruct st as [c|]; [|discriminate].
    destruct (Nat.eqb_spec c conn); inversion E; subst. reflexivity.
Qed.

Lemma follow_balance : forall tr st st',
  follow st tr = Some st' ->
  option_list st ++ opened tr = closed tr ++ option_list st'.
Proof.
  induction tr as [|o tr IH]; intros st st' H; cbn [follow] in H.
  - inversion H; subst. simpl. rewrite app_nil_r. reflexivity.
  - destruct (conn_step st o) as [st1|] eqn:E; [|discriminate].
    apply IH in H. apply conn_step_balance in E.
    change (o :: tr) with ([o] ++ tr).
    unfold opened, closed in *. rewrite !flat_map_app.
    rewrite app_assoc, E, <- !app_assoc, H. reflexivity.
Qed.

(** X9.  Every function of the clients that uses the network, and every
    goroutine of a batch, keeps its connections in order on every path:
    it holds at most one connection at a time, writes to, reads from and
    closes only the connection it holds, and has closed every connection
    it opened, once, by the time it returns -- whatever failed in
    between. *)
Theorem connections_disciplined (env : Env) (A : Type) (p : prog A)
    (w : World) (a : A) (w' : World) :
  operation A p ->
  run env p w = Some (a, w') ->
  exists new,
    trace w' = trace w ++ new /\
    follow None new = Some None /\
    closed new = opened new.
Proof.
  intros Hop Hrun.
  destruct (run_ensures env p _ w a w'
              (tidy_ensures None None p (operation_tidy A p Hop)) Hrun)
    as (new & Ht & _ & _ & Hf).
  exists new. split; [exact Ht|]. split; [exact Hf|].
  apply follow_balance in Hf. simpl in Hf. rewrite app_nil_r in Hf.
  symmetry. exact Hf.
Qed.

Lemma connections_disciplined_witness :
  exists a w',
    run sampleEnv (rotateAllJointsForCube "tail2_BASE") pairWorld =
    Some (a, w') /\
    exists new,
      trace w' = trace pairWorld ++ new /\
      follow None new = Some None /\
      closed new = opened new.
Proof.
  destruct (run sampleEnv (rotateAllJointsForCube "tail2_BASE") pairWorld)
    as [[a w']|] eqn:E; [|vm_compute in E; discriminate E].
  exists a, w'. split; [reflexivity|].
  exact (connections_disciplined sampleEnv unit _ pairWorld a w'
           (op_rotateAll "tail2_BASE") E).
Defined.

(** ** Loops *)

Lemma run_forRange env {A : Type} (body : A -> prog unit)
    (R : A -> list obs -> Prop) :
  (forall x w, exists w' new,
     run env (body x) w = Some (tt, w') /\
     trace w' = trace w ++ new /\ R x new) ->
  forall xs w, exists w' news,
    run env (forRange xs body) w = Some (tt, w') /\
    trace w' = trace w ++ concat news /\
    Forall2 R xs news.
Proof.
  intros Hb. induction xs as [|x xs IH]; intros w.
  - exists w, []. simpl. rewrite app_nil_r. auto.
  - destruct (Hb x w) as (w1 & new & Hr & Ht & HR).
    destruct (IH w1) as (w' & news & Hr' & Ht' & HR').
    exists w', (new :: news).
    unfold forRange; fold @forRange.
    rewrite run_mbind, Hr. split; [exact Hr'|].
    rewrite Ht', Ht, <- app_assoc. auto.
Qed.

Lemma flat_map_concat {A B : Type} (f : A -> list B) (ls : list (list A)) :
  flat_map f (concat ls) = concat (map (flat_map f) ls).
Proof.
  induction ls as [|l ls IH]; simpl; [reflexivity|].
  rewrite flat_map_app, IH. reflexivity.
Qed.

Lemma collected {A B : Type} (f : obs -> list B) (g : A -> list B) xs news :
  Forall2 (fun x new => flat_map f new = g x) xs news ->
  flat_map f (concat news) = flat_map g xs.
Proof.
  induction 1 as [|x new xs news Hx _ IH]; simpl; [reflexivity|].
  rewrite flat_map_app, Hx, IH. reflexivity.
Qed.



(** ** Setting the parameters of a joint *)

Lemma setJointParam_summary conn jointName paramName value :
  ensures (setJointParam conn jointName paramName value) (fun tr _ =>
    marshalled tr = [paramCommand jointName paramName value] /\
    slept tr = [] /\ dials tr = 0).
Proof. unfold setJointParam. paths. all: repeat split; reflexivity. Qed.






Lemma setJointParam_free conn jointName paramName value :
  all_events free (setJointParam conn jointName paramName value).
Proof. events. Qed.

(** One link's turn in the loops that stiffen: every entry of the map,
    in the order in which the map is visited, whatever fails. *)
Lemma run_stiffen_link env conn jointName params w :
  exists w' new,
    run env (entries ← trigger (RangeMap params);
             forRange entries (fun '(paramName, val) =>
               setJointParam conn jointName paramName val)) w =
    Some (tt, w') /\
    trace w' = trace w ++ new /\
    marshalled new =
    map (fun '(paramName, val) => paramCommand jointName paramName val)
      (map_order env params) /\
    dials new = 0.
Proof.
  run_step.
  destruct (run_forRange env
              (fun '(paramName, val) =>
                 setJointParam conn jointName paramName val)
              (fun '(paramName, val) new =>
                 flat_map (fun o => match obs_event o with
                                    | Marshal msg => [msg]
                                    | _ => []
                                    end) new =
                 [paramCommand jointName paramName val] /\
                 flat_map (fun o => match obs_event o with
                                    | Dial _ _ => [tt]
                                    | _ => []
                                    end) new = [])
              ltac:(intros [paramName val] w0;
                    destruct (free_outcome env _ _
                      (setJointParam_free conn jointName paramName val)
                      (setJointParam_summary conn jointName paramName val) w0)
                      as ([] & w1 & new & Hr & Ht & _ & _ & _ & Hm & _ & Hd);
                    exists w1, new; split; [exact Hr|]; split; [exact Ht|];
                    split; [exact Hm|];
                    unfold dials in Hd;
                    destruct (flat_map _ new); [reflexivity|discriminate])
              (map_order env params)
              (record (RangeMap params) (map_order env params) w))
    as (w' & news & Hr & Ht & HR).
  exists w', (Obs (RangeMap params) (map_order env params) :: concat news).
  split; [exact Hr|]. split; [|split].
  - rewrite Ht. simpl. rewrite <- app_assoc. reflexivity.
  - unfold marshalled. simpl.
    rewrite (collected _ (fun '(paramName, val) =>
               [paramCommand jointName paramName val])
               (map_order env params) news).
    + generalize (map_order env params). intros l.
      induction l as [|[pn v] l IH]; simpl; congruence.
    + eapply Forall2_impl; [exact HR|]. intros [pn v] new [H _]. exact H.
  - unfold dials. simpl.
    rewrite (collected _ (fun _ : string * float64 => @nil unit)
               (map_order env params) news).
    + generalize (map_order env params). intros l.
      induction l as [|x l IH]; simpl; auto.
    + eapply Forall2_impl; [exact HR|]. intros [pn v] new [_ H]. exact H.
Qed.

Lemma marshalled_app tr1 tr2 :
  marshalled (tr1 ++ tr2) = marshalled tr1 ++ marshalled tr2.
Proof. unfold marshalled. apply flat_map_app. Qed.

Lemma dials_app tr1 tr2 : dials (tr1 ++ tr2) = dials tr1 + dials tr2.
Proof. unfold dials. rewrite flat_map_app, length_app. reflexivity. Qed.





(** ** Moving the joints of an entity *)













(** ** Sessions of one command *)

Lemma testLinkBodyCubes_free prefix jointType jointParams :
  all_events free (testLinkBodyCubes prefix jointType jointParams).
Proof. unfold testLinkBodyCubes. events. Qed.

Lemma rotateCube_free cubeName rotationDelta :
  all_events free (rotateCube cubeName rotationDelta).
Proof. unfold rotateCube. events. Qed.

Lemma testLinkBodyCubes_paths prefix jointType jointParams :
  ensures (testLinkBodyCubes prefix jointType jointParams) (fun new _ =>
    appendedCubes new = [] /\ appendedLinks new = [] /\
    dials new = 1 /\
    if existsb failed new
    then marshalled new `prefix_of`
         [[("type", VString "link_body_cubes");
           ("prefix", VString prefix);
           ("joint_type", VString jointType);
           ("joint_params", VParams jointParams)]]
    else
      marshalled new =
      [[("type", VString "link_body_cubes");
        ("prefix", VString prefix);
        ("joint_type", VString jointType);
        ("joint_params", VParams jointParams)]] /\
      exists pre conn reply,
        new = pre ++
              [Obs (Incoming conn) reply;
               Obs (Println [Str "[testLinkBodyCubes] Command response:";
                             Txt (fst (readResponse reply))]) tt;
               Obs (Close conn) tt]).
Proof.
  unfold testLinkBodyCubes. paths.
  all: conjuncts; try reflexivity; try solve [eexists; reflexivity].
  eexists [_; _; _; _; _; _], _, _. reflexivity.
Qed.

Lemma rotateCube_paths cubeName rotationDelta :
  ensures (rotateCube cubeName rotationDelta) (fun new _ =>
    appendedCubes new = [] /\ appendedLinks new = [] /\
    dials new = 1 /\
    if existsb failed new
    then marshalled new `prefix_of`
         [[("type", VString "apply_force");
           ("rotate", VFloats rotationDelta);
           ("target", VString cubeName)]]
    else
      marshalled new =
      [[("type", VString "apply_force");
        ("rotate", VFloats rotationDelta);
        ("target", VString cubeName)]] /\
      exists pre conn reply,
        new = pre ++
              [Obs (Incoming conn) reply;
               Obs (Printf "[rotateCube] Server response: %s\n"
                      [Txt (fst (readResponse reply))]) tt;
               Obs (Close conn) tt]).
Proof.
  unfold rotateCube. paths.
  all: conjuncts; try reflexivity; try solve [eexists; reflexivity].
  eexists [_; _; _; _; _], _, _. reflexivity.
Qed.

(** X13.  [testLinkBodyCubes] and [rotateCube] always return, each over
    one connection, and leave the registries alone.  Each encodes its
    one command -- [link_body_cubes] with the prefix, the joint type and
    the parameters; [apply_force] with the rotation and the target --
    at most once; when nothing fails it has sent the command, read one
    more stream, and printed the text [readResponse] made of that
    stream just before it closes the connection. *)
Theorem one_command_sessions (env : Env) (w : World) :
  (forall prefix jointType jointParams, exists w' new,
     run env (testLinkBodyCubes prefix jointType jointParams) w
     = Some (tt, w') /\
     trace w' = trace w ++ new /\
     globalCubeList w' = globalCubeList w /\
     globalCubeLinks w' = globalCubeLinks w /\
     dials new = 1 /\
     if existsb failed new
     then marshalled new `prefix_of`
          [[("type", VString "link_body_cubes");
            ("prefix", VString prefix);
            ("joint_type", VString jointType);
            ("joint_params", VParams jointParams)]]
     else
       marshalled new =
       [[("type", VString "link_body_cubes");
         ("prefix", VString prefix);
         ("joint_type", VString jointType);
         ("joint_params", VParams jointParams)]] /\
       exists pre conn reply,
         new = pre ++
               [Obs (Incoming conn) reply;
                Obs (Println [Str "[testLinkBodyCubes] Command response:";
                              Txt (fst (readResponse reply))]) tt;
                Obs (Close conn) tt]) /\
  (forall cubeName rotationDelta, exists w' new,
     run env (rotateCube cubeName rotationDelta) w = Some (tt, w') /\
     trace w' = trace w ++ new /\
     globalCubeList w' = globalCubeList w /\
     globalCubeLinks w' = globalCubeLinks w /\
     dials new = 1 /\
     if existsb failed new
     then marshalled new `prefix_of`
          [[("type", VString "apply_force");
            ("rotate", VFloats rotationDelta);
            ("target", VString cubeName)]]
     else
       marshalled new =
       [[("type", VString "apply_force");
         ("rotate", VFloats rotationDelta);
         ("target", VString cubeName)]] /\
       exists pre conn reply,
         new = pre ++
               [Obs (Incoming conn) reply;
                Obs (Printf "[rotateCube] Server response: %s\n"
                       [Txt (fst (readResponse reply))]) tt;
                Obs (Close conn) tt]).
Proof.
  split.
  - intros prefix jointType jointParams.
    destruct (free_outcome env _ _
                (testLinkBodyCubes_free prefix jointType jointParams)
                (testLinkBodyCubes_paths prefix jointType jointParams) w)
      as ([] & w' & new & Hr & Ht & Hc & Hl & Hg & Hc0 & Hl0 & HP).
    exists w', new.
    rewrite Hc0, app_nil_r in Hc. rewrite Hl0, app_nil_r in Hl. auto 10.
  - intros cubeName rotationDelta.
    destruct (free_outcome env _ _
                (rotateCube_free cubeName rotationDelta)
                (rotateCube_paths cubeName rotationDelta) w)
      as ([] & w' & new & Hr & Ht & Hc & Hl & Hg & Hc0 & Hl0 & HP).
    exists w', new.
    rewrite Hc0, app_nil_r in Hc. rewrite Hl0, app_nil_r in Hl. auto 10.
Qed.

(** ** The goroutines a batch starts *)

Section Targets.

Variable env : Env.

Lemma handle_launched X (e : event X) w x w' :
  handle env e w = Some (x, w') -> started e = [] ->
  launched (trace w') = launched (trace w).
Proof.
  intros He Hs. rewrite (handle_trace env _ _ _ _ _ He), launched_app.
  rewrite <- app_nil_r. f_equal.
  destruct e; simpl in *; try reflexivity; discriminate.
Qed.

(** A step of a goroutine of the batch starts nothing. *)
Lemma step_unit_log P wg total ph s i before all :
  (forall X (e : event X), P X e -> quiet X e) ->
  batch_inv P wg total ph s ->
  batch_log before all ph s ->
  batch_log before all ph (step env s (S i)).
Proof.
  intros HP [main units Hth Hmain Hgs Hunits Hcount Hlen Hjoined]
         (done & Hl & Hd).
  exists done. split; [|exact Hd]. rewrite <- Hl.
  unfold step. rewrite Hth. simpl.
  destruct (units !! i) as [u|] eqn:Hu; [|reflexivity].
  assert (Hw : u = Ret tt \/ worker P wg u).
  { eapply Forall_lookup_1 in Hunits; eauto. }
  destruct Hw as [->|Hw]; [reflexivity|].
  destruct Hw as [k Hk|X e k He Hk].
  - destruct (handle env (Done wg) (world s)) as [[x w']|] eqn:Eh;
      [|reflexivity].
    simpl. eapply handle_launched; [exact Eh|reflexivity].
  - destruct (handle env e (world s)) as [[x w']|] eqn:Eh; [|reflexivity].
    simpl. eapply handle_launched; [exact Eh|].
    apply started_quiet, HP, He.
Qed.

(** A step of the caller starts the next goroutine of the batch, or
    none. *)
Lemma step_main_log P wg total ph s before all :
  batch_inv P wg total ph s ->
  batch_log before all ph s ->
  batch_log before all (advance ph (live (tail (threads s)))) (step env s 0).
Proof.
  intros [main units Hth Hmain Hgs Hunits Hcount Hlen Hjoined]
         (done & Hl & Hd).
  unfold step. rewrite Hth. cbn [lookup list_lookup tail].
  destruct ph as [gs|g gs|]; cbn [caller_in remaining advance] in *.
  - destruct Hmain as [k Hk|g gs k Hk].
    + exists done. split.
      * destruct (handle env (Wait wg) (world s)) as [[x w']|] eqn:Eh;
          [|exact Hl].
        cbn [world]. rewrite <- Hl.
        eapply handle_launched; [exact Eh|reflexivity].
      * destruct (live units); exact Hd.
    + exists done. split; [|exact Hd].
      destruct (handle env (Add wg 1) (world s)) as [[x w']|] eqn:Eh;
        [|exact Hl].
      cbn [world]. rewrite <- Hl.
      eapply handle_launched; [exact Eh|reflexivity].
  - destruct Hmain as [g gs k Hk].
    exists (done ++ [g]). rewrite <- app_assoc. split; [|exact Hd].
    destruct (handle env (Go g) (world s)) as [[x w']|] eqn:Eh;
      [|discriminate Eh].
    cbn [world]. rewrite (handle_trace env _ _ _ _ _ Eh), launched_app, Hl.
    rewrite <- app_assoc. reflexivity.
  - exists done. split; [|exact Hd].
    destruct Hmain as [a|X e k He Hk]; [exact Hl|].
    destruct (handle env e (world s)) as [[x w']|] eqn:Eh; [|exact Hl].
    cbn [world]. rewrite <- Hl.
    eapply handle_launched; [exact Eh|].
    apply started_quiet, free_quiet, He.
Qed.

Lemma exec_batch_log P wg total before all sched : forall ph s,
  (forall X (e : event X), P X e -> quiet X e) ->
  batch_inv P wg total ph s ->
  batch_log before all ph s ->
  exists ph',
    batch_inv P wg total ph' (exec env sched s) /\
    batch_log before all ph' (exec env sched s).
Proof.
  induction sched as [|tid sched IH]; intros ph s HP Hinv Hlog; [eauto|].
  simpl. destruct tid as [|i].
  - eapply IH; [exact HP| |].
    + apply step_main; [exact HP|exact Hinv].
    + eapply step_main_log; eauto.
  - eapply IH; [exact HP| |].
    + apply step_unit; [exact HP|exact Hinv].
    + eapply step_unit_log; eauto.
Qed.

Lemma targets_batch wg total ph s before all sched :
  batch_inv free wg total ph s ->
  batch_log before all ph s ->
  targets before all (exec env sched s).
Proof.
  intros Hinv Hlog.
  destruct (exec_batch_log free wg total before all sched ph s free_quiet
              Hinv Hlog)
    as (ph' & [main units Hth Hmain _ _ _ _ _] & (done & Hl & Hd)).
  exists done. split; [exact Hl|]. split; [eexists; symmetry; exact Hd|].
  intros H0. rewrite Hth in H0. simpl in H0. inversion H0; subst main.
  destruct ph' as [gs|g gs|]; simpl in Hmain; [inversion Hmain..|].
  simpl in Hd. rewrite app_nil_r in Hd. exact Hd.
Qed.

Lemma targets_alone all X (e : event X) k w x w' :
  handle env e w = Some (x, w') -> started e = [] ->
  (forall sched,
     targets (launched (trace w')) all
       (exec env sched {| world := w'; threads := [k x] |})) ->
  forall sched,
    targets (launched (trace w)) all
      (exec env sched {| world := w; threads := [Vis e k] |}).
Proof.
  intros He Hs Hnext sched.
  destruct (exec_alone env X e k w x w' sched He Hs) as [->|(sched' & ->)].
  - exists []. simpl. rewrite app_nil_r.
    split; [reflexivity|]. split; [eexists; reflexivity|discriminate].
  - rewrite <- (handle_launched _ _ _ _ _ He Hs). apply Hnext.
Qed.

Lemma batch_log_entry before (gs : list goroutine) s :
  launched (trace (world s)) = before ->
  batch_log before gs (Fanning gs) s.
Proof. intros <-. exists []. rewrite app_nil_r. auto. Qed.

End Targets.

Lemma unfreezeAllCubes_targets env w sched :
  targets (launched (trace w))
    (map (fun cube => go_unfreeze cube (length (waitGroups w)))
       (globalCubeList w))
    (exec env sched {| world := w; threads := [unfreezeAllCubes] |}).
Proof.
  revert sched.
  eapply targets_alone; [reflexivity..|].
  eapply targets_alone; [reflexivity..|].
  intros sched. eapply targets_batch.
  - apply (batch_entry (length (waitGroups w))
             (fun cube => go_unfreeze cube (length (waitGroups w)))
             (globalCubeList w) (trigger (Wait (length (waitGroups w))))).
    + constructor. intros x. constructor.
    + intros x. apply unfreezeCube_worker.
    + apply new_group_zero.
  - apply batch_log_entry. reflexivity.
Qed.

Lemma despawnAllCubes_targets env w sched :
  targets (launched (trace w))
    (map (fun cube => go_despawn cube (length (waitGroups w)))
       (globalCubeList w))
    (exec env sched {| world := w; threads := [despawnAllCubes] |}).
Proof.
  revert sched.
  eapply targets_alone; [reflexivity..|].
  eapply targets_alone; [reflexivity..|].
  intros sched. eapply targets_batch.
  - apply (batch_entry (length (waitGroups w))
             (fun cube => go_despawn cube (length (waitGroups w)))
             (globalCubeList w) (trigger (Wait (length (waitGroups w))))).
    + constructor. intros x. constructor.
    + intros x. apply despawnCube_worker.
    + apply new_group_zero.
  - apply batch_log_entry. reflexivity.
Qed.

Lemma stiffenAllJoints_targets env w sched :
  targets (launched (trace w))
    (map (fun link => go_stiffen link stiffParams (length (waitGroups w)))
       (globalCubeLinks w))
    (exec env sched {| world := w; threads := [stiffenAllJoints] |}).
Proof.
  revert sched.
  eapply targets_alone; [reflexivity..|].
  eapply targets_alone; [reflexivity..|].
  intros sched. eapply targets_batch.
  - apply (batch_entry (length (waitGroups w))
             (fun link => go_stiffen link stiffParams (length (waitGroups w)))
             (globalCubeLinks w)
             (trigger (Wait (length (waitGroups w)));;
              trigger (Println
                [Str "[stiffenAllJoints] All joints have been stiffened."]))).
    + constructor. intros x. events.
    + intros x. apply stiffenJoint_worker.
    + apply new_group_zero.
  - apply batch_log_entry. reflexivity.
Qed.

Lemma stiffenAllJointsBULK_targets env w sched :
  targets (launched (trace w))
    (map (fun link => go_stiffenBULK link stiffParams (length (waitGroups w)))
       (globalCubeLinks w))
    (exec env sched {| world := w; threads := [stiffenAllJointsBULK] |}).
Proof.
  revert sched.
  eapply targets_alone; [reflexivity..|].
  eapply targets_alone; [reflexivity..|].
  intros sched. eapply targets_batch.
  - apply (batch_entry (length (waitGroups w))
             (fun link =>
                go_stiffenBULK link stiffParams (length (waitGroups w)))
             (globalCubeLinks w)
             (trigger (Wait (length (waitGroups w)));;
              trigger (Println [Str "[stiffenAllJoints] All joints updated."]))).
    + constructor. intros x. events.
    + intros x. apply stiffenJointBULK_worker.
    + apply new_group_zero.
  - apply batch_log_entry. reflexivity.
Qed.

Lemma setMouthColorYellow_targets env w sched :
  targets (launched (trace w))
    (map (fun name => go_color name (length (waitGroups w))) mouthCubes)
    (exec env sched {| world := w; threads := [setMouthColorYellow] |}).
Proof.
  revert sched.
  eapply targets_alone; [reflexivity..|].
  intros sched. eapply targets_batch.
  - apply (batch_entry (length (waitGroups w))
             (fun name => go_color name (length (waitGroups w)))
             mouthCubes (trigger (Wait (length (waitGroups w))))).
    + constructor. intros x. constructor.
    + intros x. apply colorCube_worker.
    + apply new_group_zero.
  - apply batch_log_entry. reflexivity.
Qed.

(** X14.  Under every environment and every interleaving, a batch starts
    its goroutines in the order of the registry as it was when the batch
    was called, one per element and all on the wait group the batch has
    just made: the goroutines started so far are always the first of
    that list, and all of it once the caller has returned.
    [unfreezeAllCubes] and [despawnAllCubes] go by the entity registry,
    [stiffenAllJoints] and [stiffenAllJointsBULK] by the link registry
    with the stiffening parameters, [setMouthColorYellow] by its fixed
    list of twelve names; no goroutine of a batch starts another. *)
Theorem batch_targets (env : Env) (w : World) (sched : list nat) :
  targets (launched (trace w))
    (map (fun cube => go_unfreeze cube (length (waitGroups w)))
       (globalCubeList w))
    (exec env sched {| world := w; threads := [unfreezeAllCubes] |}) /\
  targets (launched (trace w))
    (map (fun cube => go_despawn cube (length (waitGroups w)))
       (globalCubeList w))
    (exec env sched {| world := w; threads := [despawnAllCubes] |}) /\
  targets (launched (trace w))
    (map (fun link => go_stiffen link stiffParams (length (waitGroups w)))
       (globalCubeLinks w))
    (exec env sched {| world := w; threads := [stiffenAllJoints] |}) /\
  targets (launched (trace w))
    (map (fun link => go_stiffenBULK link stiffParams (length (waitGroups w)))
       (globalCubeLinks w))
    (exec env sched {| world := w; threads := [stiffenAllJointsBULK] |}) /\
  targets (launched (trace w))
    (map (fun name => go_color name (length (waitGroups w))) mouthCubes)
    (exec env sched {| world := w; threads := [setMouthColorYellow] |}).
Proof.
  split; [apply unfreezeAllCubes_targets|].
  split; [apply despawnAllCubes_targets|].
  split; [apply stiffenAllJoints_targets|].
  split; [apply stiffenAllJointsBULK_targets|].
  apply setMouthColorYellow_targets.
Qed.

Example unfreezeAllCubes_pair :
  launched (trace (world (exec flakyEnv pairSchedule
                            {| world := pairWorld;
                               threads := [unfreezeAllCubes] |}))) =
  [go_unfreeze "tail1_BASE" 0; go_unfreeze "tail2_BASE" 0].
Proof. vm_compute. reflexivity. Qed.

(** ** The command of each goroutine *)

Lemma carries_intro env w wg n (p : prog unit) msg :
  worker free wg p ->
  ensures p (fun new _ =>
    appendedCubes new = [] /\ appendedLinks new = [] /\
    dials new = 1 /\
    marshalled new `prefix_of` [msg] /\
    (existsb failed new = false -> marshalled new = [msg])) ->
  waitGroups w !! wg = Some (S n) ->
  carries env w wg n p msg.
Proof.
  intros Hw Hp Hwg.
  destruct (worker_outcome env wg p _ Hw Hp w n Hwg)
    as (w' & new & Hr & Ht & Hc & Hl & Hg & Hc0 & Hl0 & HP).
  exists w', new. rewrite Hc0, app_nil_r in Hc. rewrite Hl0, app_nil_r in Hl.
  auto 10.
Qed.

Ltac errand :=
  paths; conjuncts; try reflexivity; try discriminate;
  try solve [eexists; reflexivity].

Lemma stiffenJoint_run env joint params wg w n :
  waitGroups w !! wg = Some (S n) ->
  exists w' new,
    run env (stiffenJoint joint params wg) w = Some (tt, w') /\
    trace w' = trace w ++ new /\
    waitGroups w' = <[wg := n]> (waitGroups w) /\
    dials new = 1 /\
    marshalled new =
    match dialed env (clock w), written env (S (clock w)) with
    | None, None =>
      map (fun '(paramName, val) =>
             paramCommand (JointName joint) paramName val)
        (map_order env params)
    | _, _ => []
    end.
Proof.
  intros Hwg.
  destruct (run_worker env wg _ (stiffenJoint_worker joint params wg) w n Hwg)
    as (w' & Hr & Hg).
  exists w'. rewrite Hr.
  unfold stiffenJoint in Hr. rewrite run_mbind in Hr.
  match type of Hr with
  | context [run env ?session w] =>
    assert (Hsession : exists w1 new,
      run env session w = Some (tt, w1) /\
      trace w1 = trace w ++ new /\
      dials new = 1 /\
      marshalled new =
      match dialed env (clock w), written env (S (clock w)) with
      | None, None =>
        map (fun '(paramName, val) =>
               paramCommand (JointName joint) paramName val)
          (map_order env params)
      | _, _ => []
      end)
  end.
  { run_step.
    destruct (dialed env (clock w)).
    { eexists _, _. split; [reflexivity|]. simpl.
      rewrite <- !app_assoc. auto. }
    run_step.
    destruct (written env (S (clock w))).
    { run_step. eexists _, _. split; [reflexivity|]. simpl.
      rewrite <- !app_assoc. auto. }
    run_step.
    match goal with
    | |- context [record (RangeMap _) _ ?w0] =>
      destruct (run_stiffen_link env (clock w) (JointName joint) params w0)
        as (w1 & new & Hr1 & Ht & Hm & Hd)
    end.
    cbn in Hr1. unfold handle in Hr1. cbn in Hr1.
    rewrite run_bind, Hr1. run_step.
    eexists _, _. split; [reflexivity|]. simpl.
    rewrite Ht. simpl. rewrite <- !app_assoc. split; [reflexivity|].
    simpl. split.
    - change (?a :: ?b :: ?c :: new ++ ?e) with ([a; b; c] ++ new ++ e).
      rewrite !dials_app, Hd. reflexivity.
    - change (?a :: ?b :: ?c :: new ++ ?e) with ([a; b; c] ++ new ++ e).
      rewrite !marshalled_app, Hm. simpl. apply app_nil_r. }
  destruct Hsession as (w1 & new & Hs & Ht & Hd & Hm).
  rewrite Hs in Hr. cbn in Hr. unfold handle in Hr. cbn in Hr.
  destruct (waitGroups w1 !! wg) as [[|m]|]; try discriminate.
  cbn in Hr. inversion Hr; subst w'.
  exists (new ++ [Obs (Done wg) tt]). split; [reflexivity|]. split.
  - cbn. rewrite Ht, <- app_assoc. reflexivity.
  - split; [exact Hg|]. rewrite dials_app, marshalled_app, Hd, Hm.
    simpl. rewrite app_nil_r. auto.
Qed.

(** X15.  Each goroutine of a batch, run on its own, returns whatever
    fails, dials once, takes its count off the wait group and leaves the
    registries alone, and it carries the command of its own target: for
    [unfreezeAllCubes], [freeze_cube] with [freeze] false and the
    entity's name; for [despawnAllCubes], [despawn_cube] with the name;
    for [stiffenAllJointsBULK], one [set_joint_params] with the joint's
    name and the whole parameter map; for [setMouthColorYellow],
    [set_color] with the name and [#FFFF00] -- encoded at most once, and
    exactly once when nothing failed.  The goroutine of
    [stiffenAllJoints] encodes one [set_joint_param] per entry of the
    map, in the order in which the map is visited, once its dial and
    its write of the password have succeeded, and nothing otherwise. *)
Theorem goroutine_errands (env : Env) (w : World) (wg : WaitGroup) (n : nat) :
  waitGroups w !! wg = Some (S n) ->
  (forall name,
     carries env w wg n (unfreezeCube name wg)
       [("type", VString "freeze_cube");
        ("cube_name", VString name);
        ("freeze", VBool false)]) /\
  (forall name,
     carries env w wg n (despawnCube name wg)
       [("type", VString "despawn_cube");
        ("cube_name", VString name)]) /\
  (forall joint params,
     carries env w wg n (stiffenJointBULK joint params wg)
       [("type", VString "set_joint_params");
        ("joint_name", VString (JointName joint));
        ("params", VParams params)]) /\
  (forall name,
     carries env w wg n (colorCube name wg)
       [("type", VString "set_color");
        ("cube_name", VString name);
        ("hex", VString "#FFFF00")]) /\
  (forall joint params, exists w' new,
     run env (stiffenJoint joint params wg) w = Some (tt, w') /\
     trace w' = trace w ++ new /\
     waitGroups w' = <[wg := n]> (waitGroups w) /\
     dials new = 1 /\
     marshalled new =
     match dialed env (clock w), written env (S (clock w)) with
     | None, None =>
       map (fun '(paramName, val) =>
              paramCommand (JointName joint) paramName val)
         (map_order env params)
     | _, _ => []
     end).
Proof.
  intros Hwg. conjuncts.
  - intros name. apply carries_intro; [apply unfreezeCube_worker| |exact Hwg].
    unfold unfreezeCube. errand.
  - intros name. apply carries_intro; [apply despawnCube_worker| |exact Hwg].
    unfold despawnCube. errand.
  - intros joint params.
    apply carries_intro; [apply stiffenJointBULK_worker| |exact Hwg].
    unfold stiffenJointBULK, setJointParams. errand.
  - intros name. apply carries_intro; [apply colorCube_worker| |exact Hwg].
    unfold colorCube. errand.
  - intros joint params. apply stiffenJoint_run. exact Hwg.
Qed.

Lemma goroutine_errands_witness :
  waitGroups sampleWorld !! 0 = Some 1 /\
  carries sampleEnv sampleWorld 0 0 (unfreezeCube "tail1_BASE" 0)
    [("type", VString "freeze_cube");
     ("cube_name", VString "tail1_BASE");
     ("freeze", VBool false)].
Proof.
  split; [reflexivity|].
  destruct (goroutine_errands sampleEnv sampleWorld 0 0 eq_refl) as [H _].
  apply H.
Defined.
